(** * Benzenoid enumeration up to symmetry: a shallow embedding of
      [benzenoid_generator.py] and the properties of its canonical form.

    A hexagon is a pair of (unbounded) Python integers, a benzenoid system
    is a Python list or tuple of hexagons.  Lists and tuples are both
    embedded as [list]; Python sets are embedded as [gset], and [list(s)]
    of a set [s] as [elements s].  Python exceptions are values of the
    error monad [result]. *)

From Stdlib Require Import ZArith Lia.
From stdpp Require Import gmap list sorting.

Local Open Scope Z_scope.

(** ** Exceptions *)

Inductive exn : Set := ValueError | IndexError.

Inductive result (A : Type) : Type :=
| Ok (a : A)
| Raise (e : exn).
Arguments Ok {A} a.
Arguments Raise {A} e.

Definition bind {A B} (m : result A) (k : A → result B) : result B :=
  match m with
  | Ok a => k a
  | Raise e => Raise e
  end.

Notation "'let*' x ':=' m 'in' k" := (bind m (fun x => k))
  (at level 10, x pattern, m at level 100, k at level 200, only parsing).

(** [for _ in range(n): s = body(s)] *)
Fixpoint repeatM {St} (n : nat) (body : St → result St) (s : St) : result St :=
  match n with
  | O => Ok s
  | S n' => let* s' := body s in repeatM n' body s'
  end.

(** [for x in xs: s = body(s, x)] *)
Fixpoint foldM {St X} (body : St → X → result St) (s : St) (xs : list X)
  : result St :=
  match xs with
  | [] => Ok s
  | x :: xs' => let* s' := body s x in foldM body s' xs'
  end.

(** ** The Python built-ins the program uses *)

Definition hexagon : Type := Z * Z.

Module Py.

(** [p == q] and [p < q] on pairs of integers: the first component on
    which the pairs differ decides. *)
Definition tuple_eqb (p q : hexagon) : bool :=
  (p.1 =? q.1) && (p.2 =? q.2).

Definition tuple_ltb (p q : hexagon) : bool :=
  if p.1 =? q.1 then p.2 <? q.2 else p.1 <? q.1.

(** [x < y] on sequences: the first position on which they differ
    decides, and a proper prefix is smaller. *)
Fixpoint seq_ltb (x y : list hexagon) : bool :=
  match x, y with
  | [], [] => false
  | [], _ :: _ => true
  | _ :: _, [] => false
  | p :: x', q :: y' =>
      if tuple_eqb p q then seq_ltb x' y' else tuple_ltb p q
  end.

(** [min(xs)]: the first smallest element; [ValueError] on an empty
    argument. *)
Definition min {A} (ltb : A → A → bool) (xs : list A) : result A :=
  match xs with
  | [] => Raise ValueError
  | x :: xs' => Ok (fold_left (fun m y => if ltb y m then y else m) xs' x)
  end.

(** [sorted(xs)] on a list of pairs: a stable sort that compares with
    [<] only. *)
Fixpoint insert (p : hexagon) (xs : list hexagon) : list hexagon :=
  match xs with
  | [] => [p]
  | q :: xs' => if tuple_ltb q p then q :: insert p xs' else p :: q :: xs'
  end.

Definition sorted (xs : list hexagon) : list hexagon :=
  foldr insert [] xs.

(** [xs[-1]] *)
Definition last {A} (xs : list A) : result A :=
  match last xs with
  | Some x => Ok x
  | None => Raise IndexError
  end.

End Py.

(** ** The program *)

(** Transform the system so that all coordinates are non-negative and as
    small as possible. *)
Definition to_canonical_trans (b : list hexagon) : result (list hexagon) :=
  let* i_min := Py.min Z.ltb (map fst b) in
  let* j_min := Py.min Z.ltb (map snd b) in
  Ok (Py.sorted (map (fun '(i, j) => (i - i_min, j - j_min)) b)).

(** Rotate the system by 60 degrees, counter-clockwise. *)
Definition rotation_60 (b : list hexagon) : list hexagon :=
  map (fun '(i, j) => (i + j, - i)) b.

(** Reflect the system over a line. *)
Definition reflection (b : list hexagon) : list hexagon :=
  map (fun '(i, j) => (- i, i + j)) b.

(** The canonical form: the least of the six turned and the six mirrored
    and turned images. *)
Definition to_canonical (b : list hexagon) : result (list hexagon) :=
  let* l0 := to_canonical_trans b in
  let* r0 := to_canonical_trans (reflection b) in
  let* lr :=
    repeatM 5 (fun '(l, r) =>
      let* l_last := Py.last l in
      let* l_next := to_canonical_trans (rotation_60 l_last) in
      let* r_last := Py.last r in
      let* r_next := to_canonical_trans (rotation_60 r_last) in
      Ok (l ++ [l_next], r ++ [r_next])) ([l0], [r0]) in
  let* min_l := Py.min Py.seq_ltb lr.1 in
  let* min_r := Py.min Py.seq_ltb lr.2 in
  Py.min Py.seq_ltb [min_l; min_r].

Definition are_isomorphic (b1 b2 : list hexagon) : result bool :=
  let* c1 := to_canonical b1 in
  let* c2 := to_canonical b2 in
  Ok (bool_decide (c1 = c2)).

(** The six neighbours of a hexagon. *)
Definition neighbours (h : hexagon) : list hexagon :=
  let '(i, j) := h in
  [(i + 1, j); (i + 1, j - 1); (i, j - 1);
   (i - 1, j); (i - 1, j + 1); (i, j + 1)].

(** The hexagons adjacent to some hexagon of [b] that are not in [b]. *)
Definition layer_of_fat (b : list hexagon) : list hexagon :=
  let f : gset hexagon :=
    foldl (fun f h =>
      foldl (fun f n => if bool_decide (n ∈ b) then f else {[n]} ∪ f)
            f (neighbours h))
      ∅ b in
  elements f.

(** All systems of [h] hexagons, in canonical form, grown from benzene. *)
Definition list_of_benzenoids (h : Z) : result (list (list hexagon)) :=
  repeatM (Z.to_nat (h - 1)) (fun l =>
    let* l_new :=
      foldM (fun (l_new : gset (list hexagon)) b =>
        let f := layer_of_fat b in
        foldM (fun (l_new : gset (list hexagon)) hex =>
          let* c := to_canonical (b ++ [hex]) in
          Ok ({[c]} ∪ l_new)) l_new f) ∅ l in
    Ok (elements l_new)) [[(0, 0)]].

(** ** The specification's description of translation to the origin

    These three definitions follow the words of the specification, not the
    code; [to_canonical_trans] is compared with them. *)

(** [m] is the minimum over [zs]. *)
Definition least (m : Z) (zs : list Z) : Prop :=
  m ∈ zs ∧ ∀ z, z ∈ zs → m ≤ z.

(** Lexicographic order by [(i, j)]. *)
Definition lex_le (p q : hexagon) : Prop :=
  p.1 < q.1 ∨ (p.1 = q.1 ∧ p.2 ≤ q.2).

(** [out] is [b] with the minimum [i] and the minimum [j], each taken on
    its own axis, subtracted from every coordinate, sorted
    lexicographically. *)
Definition translate_to_canonical_origin (b out : list hexagon) : Prop :=
  ∃ i_min j_min,
    least i_min (map fst b) ∧ least j_min (map snd b)
    ∧ out ≡ₚ map (fun '(i, j) => (i - i_min, j - j_min)) b
    ∧ Sorted lex_le out.

(** ** Vocabulary of the proofs *)

(** [m] is a least element of [xs] for the comparison [ltb]. *)
Definition is_min {A} (ltb : A → A → bool) (m : A) (xs : list A) : Prop :=
  m ∈ xs ∧ ∀ y, y ∈ xs → ltb y m = false.

(** [p <= q] as [sorted] sees it: not [q < p]. *)
Definition tuple_le (p q : hexagon) : Prop := Py.tuple_ltb q p = false.

(** Translation by [(- di, - dj)]. *)
Definition shift (di dj : Z) (b : list hexagon) : list hexagon :=
  map (fun '(i, j) => (i - di, j - dj)) b.

(** The minimum [min] finds, where it finds one. *)
Definition zmin (zs : list Z) : Z :=
  match Py.min Z.ltb zs with
  | Ok m => m
  | Raise _ => 0
  end.

(** What [to_canonical_trans] returns on a non-empty system. *)
Definition norm (b : list hexagon) : list hexagon :=
  Py.sorted (shift (zmin (map fst b)) (zmin (map snd b)) b).

(** One system is a rearrangement of a translate of the other. *)
Definition similar (x y : list hexagon) : Prop :=
  ∃ di dj, y ≡ₚ shift di dj x.

(** The symmetries on one hexagon. *)
Definition rot60 (p : hexagon) : hexagon := let '(i, j) := p in (i + j, - i).
Definition refl (p : hexagon) : hexagon := let '(i, j) := p in (- i, i + j).

(** One turn of the loop on one of the lists. *)
Definition step (x : list hexagon) : list hexagon := norm (rotation_60 x).

(** [x] followed by its [n] successive images under [step]. *)
Fixpoint chain (n : nat) (x : list hexagon) : list (list hexagon) :=
  match n with
  | O => [x]
  | S n' => x :: chain n' (step x)
  end.

(** The twelve normalised images, in the order the program builds them. *)
Definition images (b : list hexagon) : list (list hexagon) :=
  chain 5 (norm b) ++ chain 5 (norm (reflection b)).

(** The image of [b] under [k] turns, after the mirror if [mirror] is set,
    brought to the origin. *)
Definition image (k : nat) (mirror : bool) (b : list hexagon) : list hexagon :=
  norm (Nat.iter k rotation_60 (if mirror then reflection b else b)).

(** [y] is one of the normalised symmetric images of [b]. *)
Definition in_orbit (b y : list hexagon) : Prop :=
  ∃ k mirror, y = image k mirror b.

(** A system of [size] pairwise distinct hexagons. *)
Definition polyhex (size : nat) (b : list hexagon) : Prop :=
  length b = size ∧ NoDup b.

(** [k] turns, after the mirror if [mirror] is set. *)
Definition symmetry (k : nat) (mirror : bool) (b : list hexagon)
  : list hexagon :=
  Nat.iter k rotation_60 (if mirror then reflection b else b).

(** [y] is a rearranged translate of a symmetric image of [x]: the two
    systems have the same shape. *)
Definition congruent (x y : list hexagon) : Prop :=
  ∃ k mirror, similar (symmetry k mirror x) y.

(** [b] lies next to [a] on the lattice. *)
Definition adjacent (a b : hexagon) : Prop := b ∈ neighbours a.

(** Any two hexagons of [s] are joined by a walk that stays in [s]. *)
Definition connected (s : list hexagon) : Prop :=
  ∀ x y, x ∈ s → y ∈ s → rtc (fun u v => v ∈ s ∧ adjacent u v) x y.

(** The systems obtained from one hexagon by adding, one at a time, a new
    hexagon next to one already there. *)
Inductive built : list hexagon → Prop :=
| built_one h : built [h]
| built_add s h x : built s → h ∈ s → adjacent h x → x ∉ s → built (s ++ [x]).

(** The body of the loops of [list_of_benzenoids], by name: one candidate,
    all candidates of one system, one generation. *)
Definition grow_one (b : list hexagon) (l_new : gset (list hexagon))
    (hex : hexagon) : result (gset (list hexagon)) :=
  let* c := to_canonical (b ++ [hex]) in
  Ok ({[c]} ∪ l_new).

Definition grow (l_new : gset (list hexagon)) (b : list hexagon)
  : result (gset (list hexagon)) :=
  let f := layer_of_fat b in
  foldM (grow_one b) l_new f.

Definition generation (l : list (list hexagon))
  : result (list (list hexagon)) :=
  let* l_new := foldM grow ∅ l in
  Ok (elements l_new).

(** ** The comparisons are strict total orders *)

Lemma tuple_eqb_eq p q : Py.tuple_eqb p q = true ↔ p = q.
Proof.
  destruct p as [a b], q as [c d]; unfold Py.tuple_eqb; simpl.
  rewrite andb_true_iff, !Z.eqb_eq. split; [intros [-> ->]|intros [= -> ->]]; done.
Qed.

Lemma tuple_eqb_refl p : Py.tuple_eqb p p = true.
Proof. by apply tuple_eqb_eq. Qed.

Lemma tuple_ltb_spec p q :
  Py.tuple_ltb p q = true ↔ p.1 < q.1 ∨ (p.1 = q.1 ∧ p.2 < q.2).
Proof.
  unfold Py.tuple_ltb. destruct (Z.eqb_spec p.1 q.1).
  - rewrite Z.ltb_lt. lia.
  - rewrite Z.ltb_lt. lia.
Qed.

Lemma tuple_ltb_false p q :
  Py.tuple_ltb p q = false ↔ q.1 < p.1 ∨ (p.1 = q.1 ∧ q.2 ≤ p.2).
Proof.
  rewrite <- not_true_iff_false, tuple_ltb_spec. lia.
Qed.

Lemma tuple_ltb_irrefl p : Py.tuple_ltb p p = false.
Proof. apply tuple_ltb_false. lia. Qed.

Lemma tuple_ltb_trans p q r :
  Py.tuple_ltb p q = true → Py.tuple_ltb q r = true → Py.tuple_ltb p r = true.
Proof. rewrite !tuple_ltb_spec. lia. Qed.

Lemma tuple_ltb_total p q :
  Py.tuple_ltb p q = false → Py.tuple_ltb q p = false → p = q.
Proof.
  rewrite !tuple_ltb_false. destruct p, q; simpl. intros. f_equal; lia.
Qed.

Lemma seq_ltb_irrefl x : Py.seq_ltb x x = false.
Proof.
  induction x as [|p x IH]; simpl; [done|]. by rewrite tuple_eqb_refl.
Qed.

Lemma seq_ltb_trans x y z :
  Py.seq_ltb x y = true → Py.seq_ltb y z = true → Py.seq_ltb x z = true.
Proof.
  revert y z. induction x as [|p x IH]; intros [|q y] [|r z]; simpl; try done.
  destruct (Py.tuple_eqb p q) eqn:Epq.
  - apply tuple_eqb_eq in Epq as ->.
    destruct (Py.tuple_eqb q r); [apply IH|done].
  - destruct (Py.tuple_eqb q r) eqn:Eqr.
    + apply tuple_eqb_eq in Eqr as ->. by rewrite Epq.
    + intros Hpq Hqr. pose proof (tuple_ltb_trans _ _ _ Hpq Hqr) as Hpr.
      destruct (Py.tuple_eqb p r) eqn:Epr; [|done].
      apply tuple_eqb_eq in Epr as ->. by rewrite tuple_ltb_irrefl in Hpr.
Qed.

Lemma seq_ltb_total x y :
  Py.seq_ltb x y = false → Py.seq_ltb y x = false → x = y.
Proof.
  revert y. induction x as [|p x IH]; intros [|q y]; simpl; try done.
  destruct (Py.tuple_eqb p q) eqn:Epq.
  - apply tuple_eqb_eq in Epq as ->. rewrite tuple_eqb_refl.
    intros ??. f_equal. by apply IH.
  - destruct (Py.tuple_eqb q p) eqn:Eqp.
    + apply tuple_eqb_eq in Eqp as ->. by rewrite tuple_eqb_refl in Epq.
    + intros H1 H2. pose proof (tuple_ltb_total _ _ H1 H2) as ->.
      by rewrite tuple_eqb_refl in Epq.
Qed.

(** ** [min] returns the least element, which is unique *)

Section Min.
Context {A : Type} (ltb : A → A → bool).
Hypothesis ltb_irrefl : ∀ x, ltb x x = false.
Hypothesis ltb_trans : ∀ x y z, ltb x y = true → ltb y z = true → ltb x z = true.
Hypothesis ltb_total : ∀ x y, ltb x y = false → ltb y x = false → x = y.

Lemma is_min_unique m m' xs : is_min ltb m xs → is_min ltb m' xs → m = m'.
Proof using ltb_total. intros [Hm Hl] [Hm' Hl']. apply ltb_total; auto. Qed.

Lemma fold_min_spec xs x :
  is_min ltb (fold_left (fun m y => if ltb y m then y else m) xs x) (x :: xs).
Proof using ltb_irrefl ltb_trans ltb_total.
  revert x. induction xs as [|y xs IH]; intros x; simpl.
  - split; [left|]. intros y ->%list_elem_of_singleton. apply ltb_irrefl.
  - destruct (IH (if ltb y x then y else x)) as [Hin Hle]. split.
    + apply elem_of_cons in Hin as [->|Hin].
      * destruct (ltb y x); [right; left|left].
      * by do 2 right.
    + intros z Hz.
      assert (Hstep : ltb z (if ltb y x then y else x) = false →
                      ltb z (fold_left (fun m y => if ltb y m then y else m) xs
                               (if ltb y x then y else x)) = false).
      { intros Hz0. destruct (ltb z (fold_left _ xs _)) eqn:E; [|done].
        pose proof (Hle _ (list_elem_of_here _ _)) as Hm.
        destruct (ltb (if ltb y x then y else x) (fold_left _ xs _)) eqn:E2;
          [done|].
        clear Hm.
        (* z < m ≤ c contradicts ¬ z < c *)
        destruct (ltb (fold_left (fun m y => if ltb y m then y else m) xs
                         (if ltb y x then y else x))
                      (if ltb y x then y else x)) eqn:E3.
        - by rewrite (ltb_trans _ _ _ E E3) in Hz0.
        - rewrite <- (ltb_total _ _ E2 E3) in E. congruence. }
      apply elem_of_cons in Hz as [->|Hz].
      * apply Hstep. destruct (ltb y x) eqn:E; [|apply ltb_irrefl].
        destruct (ltb x y) eqn:E'; [|done].
        pose proof (ltb_trans _ _ _ E' E) as Hxx. by rewrite ltb_irrefl in Hxx.
      * apply elem_of_cons in Hz as [->|Hz].
        -- apply Hstep. destruct (ltb y x) eqn:E; [apply ltb_irrefl|done].
        -- apply Hle. by right.
Qed.

Lemma min_spec xs : xs ≠ [] → ∃ m, Py.min ltb xs = Ok m ∧ is_min ltb m xs.
Proof using ltb_irrefl ltb_trans ltb_total.
  destruct xs as [|x xs]; [done|]. intros _. eexists. split; [done|].
  apply fold_min_spec.
Qed.

Lemma is_min_min xs m : is_min ltb m xs → Py.min ltb xs = Ok m.
Proof using ltb_irrefl ltb_trans ltb_total.
  intros Hm. destruct (min_spec xs) as (m' & -> & Hm').
  - intros ->. destruct Hm as [Hm _]. by apply elem_of_nil in Hm.
  - f_equal. eapply is_min_unique; eauto.
Qed.

Lemma is_min_ext xs ys m :
  (∀ x, x ∈ xs ↔ x ∈ ys) → is_min ltb m xs → is_min ltb m ys.
Proof. intros H [Hm Hl]. split; [by apply H|]. intros y Hy. by apply Hl, H. Qed.
End Min.

(** ** [sorted] returns the sorted rearrangement, which is unique *)

#[local] Instance tuple_le_trans : Transitive tuple_le.
Proof. intros p q r. unfold tuple_le. rewrite !tuple_ltb_false. lia. Qed.

#[local] Instance tuple_le_antisymm : AntiSymm (=) tuple_le.
Proof. intros p q Hpq Hqp. by apply tuple_ltb_total. Qed.

Lemma tuple_le_total p q : tuple_le p q ∨ tuple_le q p.
Proof. unfold tuple_le. rewrite !tuple_ltb_false. lia. Qed.

Lemma insert_Permutation p xs : Py.insert p xs ≡ₚ p :: xs.
Proof.
  induction xs as [|q xs IH]; simpl; [done|].
  destruct (Py.tuple_ltb q p); [|done].
  rewrite IH. apply Permutation_swap.
Qed.

Lemma sorted_Permutation xs : Py.sorted xs ≡ₚ xs.
Proof.
  induction xs as [|p xs IH]; simpl; [done|].
  rewrite insert_Permutation. by f_equiv.
Qed.

Lemma insert_Sorted p xs :
  Sorted tuple_le xs → Sorted tuple_le (Py.insert p xs).
Proof.
  induction 1 as [|q xs Hxs IH Hq]; simpl.
  - by repeat constructor.
  - destruct (Py.tuple_ltb q p) eqn:E.
    + constructor; [done|].
      assert (Hqp : tuple_le q p).
      { destruct (tuple_le_total q p) as [|Hpq]; [done|].
        unfold tuple_le in Hpq. congruence. }
      destruct Hq as [|r xs' Hqr]; simpl; [by constructor|].
      destruct (Py.tuple_ltb r p); by constructor.
    + constructor; [by constructor|]. by constructor.
Qed.

Lemma sorted_Sorted xs : Sorted tuple_le (Py.sorted xs).
Proof.
  induction xs as [|p xs IH]; simpl; [constructor|]. by apply insert_Sorted.
Qed.

Lemma sorted_perm_eq xs ys : xs ≡ₚ ys → Py.sorted xs = Py.sorted ys.
Proof.
  intros H. apply (Sorted_unique tuple_le); try apply sorted_Sorted.
  by rewrite !sorted_Permutation.
Qed.

Lemma sorted_length xs : length (Py.sorted xs) = length xs.
Proof. apply Permutation_length, sorted_Permutation. Qed.

(** ** Translation to the origin *)

Lemma Zltb_trans x y z : (x <? y) = true → (y <? z) = true → (x <? z) = true.
Proof. rewrite !Z.ltb_lt. lia. Qed.

Lemma Zltb_total x y : (x <? y) = false → (y <? x) = false → x = y.
Proof. rewrite !Z.ltb_ge. lia. Qed.

Lemma zmin_is_min zs : zs ≠ [] → is_min Z.ltb (zmin zs) zs.
Proof.
  intros Hne. unfold zmin.
  destruct (min_spec Z.ltb Z.ltb_irrefl Zltb_trans Zltb_total zs Hne)
    as (m & -> & Hm). done.
Qed.

Lemma zmin_unique zs m : is_min Z.ltb m zs → zmin zs = m.
Proof.
  intros Hm. unfold zmin.
  by rewrite (is_min_min Z.ltb Z.ltb_irrefl Zltb_trans Zltb_total zs m Hm).
Qed.

Lemma to_canonical_trans_norm b :
  b ≠ [] → to_canonical_trans b = Ok (norm b).
Proof.
  intros Hne. unfold to_canonical_trans, norm, zmin, shift.
  destruct b as [|p b]; [done|]. done.
Qed.

Lemma shift_length di dj b : length (shift di dj b) = length b.
Proof. apply length_map. Qed.

Lemma norm_length b : length (norm b) = length b.
Proof. unfold norm. by rewrite sorted_length, shift_length. Qed.

Lemma norm_nonempty b : b ≠ [] → norm b ≠ [].
Proof.
  intros Hne Hn. apply Hne, nil_length_inv. by rewrite <- norm_length, Hn.
Qed.

Lemma norm_Permutation b :
  norm b ≡ₚ shift (zmin (map fst b)) (zmin (map snd b)) b.
Proof. apply sorted_Permutation. Qed.

Lemma similar_norm b : similar b (norm b).
Proof. eexists _, _. apply norm_Permutation. Qed.

Lemma zmin_translate (zs ws : list Z) d :
  zs ≠ [] → (∀ w, w ∈ ws ↔ ∃ z, z ∈ zs ∧ w = z - d) →
  zmin ws = zmin zs - d.
Proof.
  intros Hne Hws. destruct (zmin_is_min zs Hne) as [Hin Hle].
  apply zmin_unique. split.
  - apply Hws. eauto.
  - intros w (z & Hz & ->)%Hws. specialize (Hle z Hz).
    apply Z.ltb_ge. apply Z.ltb_ge in Hle. lia.
Qed.

Lemma shift_shift a b c d x : shift a b (shift c d x) = shift (a + c) (b + d) x.
Proof.
  unfold shift. rewrite map_map. apply map_ext. intros [i j]. f_equal; lia.
Qed.

Lemma elem_of_map_fst_shift di dj x y w :
  y ≡ₚ shift di dj x → w ∈ map fst y ↔ ∃ z, z ∈ map fst x ∧ w = z - di.
Proof.
  intros Hy. rewrite Hy. unfold shift. rewrite map_map.
  rewrite list_elem_of_In, in_map_iff. split.
  - intros ([i j] & <- & Hp). exists i. split; [|done].
    apply list_elem_of_In, in_map_iff. by exists (i, j).
  - intros (z & Hz & ->). apply list_elem_of_In, in_map_iff in Hz as ([i j] & <- & Hp).
    by exists (i, j).
Qed.

Lemma elem_of_map_snd_shift di dj x y w :
  y ≡ₚ shift di dj x → w ∈ map snd y ↔ ∃ z, z ∈ map snd x ∧ w = z - dj.
Proof.
  intros Hy. rewrite Hy. unfold shift. rewrite map_map.
  rewrite list_elem_of_In, in_map_iff. split.
  - intros ([i j] & <- & Hp). exists j. split; [|done].
    apply list_elem_of_In, in_map_iff. by exists (i, j).
  - intros (z & Hz & ->). apply list_elem_of_In, in_map_iff in Hz as ([i j] & <- & Hp).
    by exists (i, j).
Qed.

Lemma map_nonempty {A B} (f : A → B) (l : list A) : l ≠ [] → map f l ≠ [].
Proof. by destruct l. Qed.

(** Normalisation forgets the position and the order of the hexagons. *)
Lemma norm_similar x y : x ≠ [] → similar x y → norm x = norm y.
Proof.
  intros Hne (di & dj & Hy). unfold norm. apply sorted_perm_eq.
  rewrite (zmin_translate (map fst x) (map fst y) di);
    [|by apply map_nonempty|intros w; by eapply elem_of_map_fst_shift].
  rewrite (zmin_translate (map snd x) (map snd y) dj);
    [|by apply map_nonempty|intros w; by eapply elem_of_map_snd_shift].
  symmetry. etrans; [apply Permutation_map, Hy|].
  fold (shift (zmin (map fst x) - di) (zmin (map snd x) - dj) (shift di dj x)).
  rewrite shift_shift. by replace (zmin (map fst x) - di + di) with (zmin (map fst x)) by lia;
    replace (zmin (map snd x) - dj + dj) with (zmin (map snd x)) by lia.
Qed.

Lemma similar_nonempty x y : x ≠ [] → similar x y → y ≠ [].
Proof.
  intros Hne (di & dj & Hy) ->. apply Permutation_nil_l in Hy.
  apply Hne, nil_length_inv. by rewrite <- (shift_length di dj), <- Hy.
Qed.

Lemma similar_refl x : similar x x.
Proof.
  exists 0, 0. unfold shift. rewrite <- (map_id x) at 1.
  apply Permutation_refl'. apply map_ext. intros [i j]. f_equal; lia.
Qed.

(** ** The symmetries are linear, so they commute with translation *)

Lemma rotation_60_map b : rotation_60 b = map rot60 b.
Proof. done. Qed.

Lemma reflection_map b : reflection b = map refl b.
Proof. done. Qed.

Lemma similar_rotation_60 x y :
  similar x y → similar (rotation_60 x) (rotation_60 y).
Proof.
  intros (di & dj & Hy). exists (di + dj), (- di).
  unfold rotation_60. rewrite Hy. unfold shift. rewrite !map_map.
  apply Permutation_refl'. apply map_ext. intros [i j]. f_equal; lia.
Qed.

Lemma similar_reflection x y :
  similar x y → similar (reflection x) (reflection y).
Proof.
  intros (di & dj & Hy). exists (- di), (di + dj).
  unfold reflection. rewrite Hy. unfold shift. rewrite !map_map.
  apply Permutation_refl'. apply map_ext. intros [i j]. f_equal; lia.
Qed.

Lemma rotation_60_nonempty b : b ≠ [] → rotation_60 b ≠ [].
Proof. apply map_nonempty. Qed.

Lemma reflection_nonempty b : b ≠ [] → reflection b ≠ [].
Proof. apply map_nonempty. Qed.

Lemma iter_rotation_60_nonempty k b : b ≠ [] → Nat.iter k rotation_60 b ≠ [].
Proof.
  intros Hne. induction k as [|k IH]; simpl; [done|].
  by apply rotation_60_nonempty.
Qed.

(** ** The two lists [to_canonical] builds *)

Lemma step_nonempty x : x ≠ [] → step x ≠ [].
Proof. intros. by apply norm_nonempty, rotation_60_nonempty. Qed.

Lemma last_snoc_ok {A} (l : list A) x : Py.last (l ++ [x]) = Ok x.
Proof. unfold Py.last. by rewrite last_snoc. Qed.

Lemma to_canonical_loop n l x r y :
  x ≠ [] → y ≠ [] →
  repeatM n (fun '(l, r) =>
      let* l_last := Py.last l in
      let* l_next := to_canonical_trans (rotation_60 l_last) in
      let* r_last := Py.last r in
      let* r_next := to_canonical_trans (rotation_60 r_last) in
      Ok (l ++ [l_next], r ++ [r_next])) (l ++ [x], r ++ [y])
  = Ok (l ++ chain n x, r ++ chain n y).
Proof.
  revert l x r y. induction n as [|n IH]; intros l x r y Hx Hy; [done|].
  cbn [repeatM]. rewrite !last_snoc_ok. cbn [bind].
  rewrite (to_canonical_trans_norm (rotation_60 x))
    by by apply rotation_60_nonempty.
  cbn [bind].
  rewrite (to_canonical_trans_norm (rotation_60 y))
    by by apply rotation_60_nonempty.
  cbn [bind]. fold (step x) (step y).
  rewrite IH by by apply step_nonempty.
  by rewrite <- !app_assoc.
Qed.

Lemma chain_nonempty n x : chain n x ≠ [].
Proof. by destruct n. Qed.

Lemma seq_ltb_le_trans x y z :
  Py.seq_ltb y x = false → Py.seq_ltb z y = false → Py.seq_ltb z x = false.
Proof.
  intros Hyx Hzy. destruct (Py.seq_ltb z x) eqn:Hzx; [|done].
  destruct (Py.seq_ltb y z) eqn:Hyz.
  - by rewrite (seq_ltb_trans _ _ _ Hyz Hzx) in Hyx.
  - rewrite (seq_ltb_total _ _ Hyz Hzy) in Hyx. congruence.
Qed.

(** [to_canonical] returns the least of the twelve images. *)
Lemma to_canonical_spec b :
  b ≠ [] → ∃ m, to_canonical b = Ok m ∧ is_min Py.seq_ltb m (images b).
Proof.
  intros Hne. unfold to_canonical.
  rewrite (to_canonical_trans_norm b) by done. cbn [bind].
  rewrite (to_canonical_trans_norm (reflection b))
    by by apply reflection_nonempty.
  cbn [bind].
  pose proof (to_canonical_loop 5 [] (norm b) [] (norm (reflection b))) as Hl.
  cbn [app] in Hl. rewrite Hl
    by (apply norm_nonempty; by try apply reflection_nonempty).
  clear Hl. cbn [bind fst snd].
  destruct (min_spec Py.seq_ltb seq_ltb_irrefl seq_ltb_trans seq_ltb_total
              (chain 5 (norm b)) (chain_nonempty _ _)) as (ml & -> & Hl1 & Hl2).
  destruct (min_spec Py.seq_ltb seq_ltb_irrefl seq_ltb_trans seq_ltb_total
              (chain 5 (norm (reflection b))) (chain_nonempty _ _))
    as (mr & -> & Hr1 & Hr2).
  cbn [bind].
  destruct (min_spec Py.seq_ltb seq_ltb_irrefl seq_ltb_trans seq_ltb_total
              [ml; mr]) as (m & -> & Hm1 & Hm2); [done|].
  exists m. split; [done|]. unfold images. split.
  - apply elem_of_app.
    apply elem_of_cons in Hm1 as [->|Hm1]; [by left|].
    apply list_elem_of_singleton in Hm1 as ->. by right.
  - intros y [Hy|Hy]%elem_of_app.
    + apply (seq_ltb_le_trans _ ml); [|by apply Hl2]. apply Hm2. by left.
    + apply (seq_ltb_le_trans _ mr); [|by apply Hr2]. apply Hm2.
      right. by left.
Qed.

Lemma to_canonical_is_min b m :
  b ≠ [] → to_canonical b = Ok m ↔ is_min Py.seq_ltb m (images b).
Proof.
  intros Hne. destruct (to_canonical_spec b Hne) as (m' & Hm' & Hmin).
  rewrite Hm'. split.
  - by intros [= <-].
  - intros Hm. f_equal.
    eapply (is_min_unique Py.seq_ltb seq_ltb_total); eauto.
Qed.

(** The lists hold the normalised images of the turned system. *)
Lemma chain_norm n c :
  c ≠ [] →
  chain n (norm c) = map (fun k => norm (Nat.iter k rotation_60 c)) (seq 0 (S n)).
Proof.
  revert c. induction n as [|n IH]; intros c Hne; [done|].
  cbn [chain]. unfold step at 1.
  rewrite <- (norm_similar (rotation_60 c) (rotation_60 (norm c)));
    [|by apply rotation_60_nonempty|apply similar_rotation_60, similar_norm].
  rewrite IH by by apply rotation_60_nonempty.
  change (seq 0 (S (S n))) with (0%nat :: seq 1 (S n)).
  rewrite <- seq_shift. cbn [map Nat.iter]. f_equal.
  rewrite map_map. apply map_ext. intros k.
  by rewrite Nat.iter_succ_r.
Qed.

(** ** The symmetry group: six turns and a mirror *)

Lemma rotation_60_six b : Nat.iter 6 rotation_60 b = b.
Proof.
  cbn [Nat.iter nat_rect]. unfold rotation_60. rewrite !map_map.
  rewrite <- (map_id b) at 2. apply map_ext. intros [i j]. f_equal; lia.
Qed.

Lemma reflection_reflection b : reflection (reflection b) = b.
Proof.
  unfold reflection. rewrite map_map.
  rewrite <- (map_id b) at 2. apply map_ext. intros [i j]. f_equal; lia.
Qed.

Lemma reflection_rotation_60 b :
  reflection (rotation_60 b) = Nat.iter 5 rotation_60 (reflection b).
Proof.
  cbn [Nat.iter nat_rect]. unfold rotation_60, reflection. rewrite !map_map.
  apply map_ext. intros [i j]. f_equal; lia.
Qed.

Lemma rotation_60_reflection_rotation_60 b :
  rotation_60 (reflection (rotation_60 b)) = reflection b.
Proof.
  unfold rotation_60, reflection. rewrite !map_map.
  apply map_ext. intros [i j]. f_equal; lia.
Qed.

Lemma rotation_60_iter_six q b : Nat.iter (q * 6) rotation_60 b = b.
Proof.
  induction q as [|q IH]; [done|].
  change (S q * 6)%nat with (6 + q * 6)%nat.
  by rewrite Nat.iter_add, IH, rotation_60_six.
Qed.

Lemma rotation_60_iter_mod k b :
  Nat.iter k rotation_60 b = Nat.iter (k mod 6) rotation_60 b.
Proof.
  assert (Hk : (k = k mod 6 + k / 6 * 6)%nat)
    by (pose proof (Nat.div_mod_eq k 6); lia).
  transitivity (Nat.iter (k mod 6 + k / 6 * 6) rotation_60 b);
    [by rewrite <- Hk|].
  by rewrite Nat.iter_add, rotation_60_iter_six.
Qed.

Lemma elem_of_images b y : b ≠ [] → y ∈ images b ↔ in_orbit b y.
Proof.
  intros Hne. unfold images.
  rewrite !chain_norm by by try apply reflection_nonempty.
  rewrite elem_of_app, !list_elem_of_In, !in_map_iff. split.
  - intros [(k & <- & _)|(k & <- & _)]; [by exists k, false|by exists k, true].
  - intros (k & mirror & ->). unfold image.
    rewrite rotation_60_iter_mod.
    assert (In (k mod 6)%nat (seq 0 6)).
    { apply in_seq. pose proof (Nat.mod_upper_bound k 6). lia. }
    destruct mirror; [right|left]; by exists (k mod 6)%nat.
Qed.

Lemma in_orbit_rotation_60 b y :
  in_orbit (rotation_60 b) y ↔ in_orbit b y.
Proof.
  unfold in_orbit, image. split; intros (k & [] & ->).
  - exists (k + 5)%nat, true.
    by rewrite reflection_rotation_60, <- Nat.iter_add.
  - exists (S k), false. by rewrite Nat.iter_succ_r.
  - exists (S k), true.
    by rewrite Nat.iter_succ_r, rotation_60_reflection_rotation_60.
  - exists (k + 5)%nat, false.
    rewrite Nat.iter_add, <- (Nat.iter_succ_r 5).
    by rewrite rotation_60_six.
Qed.

Lemma in_orbit_reflection b y :
  in_orbit (reflection b) y ↔ in_orbit b y.
Proof.
  unfold in_orbit, image. split; intros (k & [] & ->).
  - exists k, false. by rewrite reflection_reflection.
  - by exists k, true.
  - by exists k, false.
  - exists k, true. by rewrite reflection_reflection.
Qed.

Lemma to_canonical_orbit b c :
  b ≠ [] → c ≠ [] → (∀ y, in_orbit c y ↔ in_orbit b y) →
  to_canonical c = to_canonical b.
Proof.
  intros Hb Hc Horb. destruct (to_canonical_spec b Hb) as (m & -> & Hm).
  apply to_canonical_is_min; [done|].
  eapply is_min_ext; [|done].
  intros y. by rewrite !elem_of_images, Horb.
Qed.

Lemma to_canonical_rotation_60 b :
  b ≠ [] → to_canonical (rotation_60 b) = to_canonical b.
Proof.
  intros Hb. apply to_canonical_orbit; [done|by apply rotation_60_nonempty|].
  apply in_orbit_rotation_60.
Qed.

Lemma to_canonical_reflection b :
  b ≠ [] → to_canonical (reflection b) = to_canonical b.
Proof.
  intros Hb. apply to_canonical_orbit; [done|by apply reflection_nonempty|].
  apply in_orbit_reflection.
Qed.

Lemma to_canonical_iter_rotation_60 k b :
  b ≠ [] → to_canonical (Nat.iter k rotation_60 b) = to_canonical b.
Proof.
  intros Hb. induction k as [|k IH]; [done|]. rewrite Nat.iter_succ.
  rewrite to_canonical_rotation_60; [done|].
  by apply iter_rotation_60_nonempty.
Qed.

(** The canonical form depends on the system up to position and order
    only. *)
Lemma images_similar x y : x ≠ [] → similar x y → images x = images y.
Proof.
  intros Hx Hxy. unfold images.
  rewrite (norm_similar x y) by done.
  rewrite (norm_similar (reflection x) (reflection y));
    [done|by apply reflection_nonempty|by apply similar_reflection].
Qed.

Lemma to_canonical_similar x y :
  x ≠ [] → similar x y → to_canonical x = to_canonical y.
Proof.
  intros Hx Hxy. pose proof (similar_nonempty _ _ Hx Hxy) as Hy.
  destruct (to_canonical_spec x Hx) as (m & -> & Hm). symmetry.
  apply to_canonical_is_min; [done|]. by rewrite <- (images_similar x y).
Qed.

(** ** Every image is a rearrangement of an injective image of the system *)

Lemma rot60_inj p q : rot60 p = rot60 q → p = q.
Proof. destruct p, q; simpl. intros [=]. f_equal; lia. Qed.

Lemma refl_inj p q : refl p = refl q → p = q.
Proof. destruct p, q; simpl. intros [=]. f_equal; lia. Qed.

Lemma iter_rotation_60_map k b :
  Nat.iter k rotation_60 b = map (Nat.iter k rot60) b.
Proof.
  induction k as [|k IH]; simpl.
  - by rewrite map_id.
  - rewrite IH. unfold rotation_60. by rewrite map_map.
Qed.

Lemma iter_rot60_inj k p q : Nat.iter k rot60 p = Nat.iter k rot60 q → p = q.
Proof. induction k as [|k IH]; simpl; [done|]. intros ?%rot60_inj. auto. Qed.

Lemma in_orbit_Permutation b y :
  in_orbit b y →
  ∃ f : hexagon → hexagon, (∀ p q, f p = f q → p = q) ∧ y ≡ₚ map f b.
Proof.
  intros (k & mirror & ->). unfold image.
  set (c := Nat.iter k rotation_60 (if mirror then reflection b else b)).
  exists (fun p => let '(i, j) := Nat.iter k rot60 (if mirror then refl p else p)
                   in (i - zmin (map fst c), j - zmin (map snd c))).
  split.
  - intros p q.
    destruct (Nat.iter k rot60 (if mirror then refl p else p)) as [i j] eqn:Ep.
    destruct (Nat.iter k rot60 (if mirror then refl q else q)) as [i' j'] eqn:Eq.
    intros [=]. assert (i = i') by lia. assert (j = j') by lia. subst.
    rewrite <- Eq in Ep. apply iter_rot60_inj in Ep.
    destruct mirror; [by apply refl_inj|done].
  - rewrite norm_Permutation. unfold shift, c.
    rewrite iter_rotation_60_map. destruct mirror.
    + unfold reflection. rewrite !map_map. apply Permutation_refl'.
      apply map_ext. intros [i j]. done.
    + rewrite !map_map. done.
Qed.

Lemma to_canonical_in_orbit b m :
  b ≠ [] → to_canonical b = Ok m → in_orbit b m.
Proof.
  intros Hb Hm. apply to_canonical_is_min in Hm as [Hm _]; [|done].
  by apply elem_of_images.
Qed.

Lemma to_canonical_length b m :
  b ≠ [] → to_canonical b = Ok m → length m = length b.
Proof.
  intros Hb Hm.
  destruct (in_orbit_Permutation b m) as (f & _ & Hperm);
    [by apply to_canonical_in_orbit|].
  by rewrite Hperm, length_map.
Qed.

Lemma to_canonical_NoDup b m :
  b ≠ [] → to_canonical b = Ok m → NoDup m ↔ NoDup b.
Proof.
  intros Hb Hm.
  destruct (in_orbit_Permutation b m) as (f & Hf & Hperm);
    [by apply to_canonical_in_orbit|].
  rewrite Hperm. split.
  - apply (NoDup_fmap_1 f).
  - apply (NoDup_fmap_2_strong f). intros p q _ _. apply Hf.
Qed.

(** ** The growth step *)

Lemma layer_of_fat_not_elem_of b hex : hex ∈ layer_of_fat b → hex ∉ b.
Proof.
  unfold layer_of_fat. rewrite elem_of_elements.
  assert (Hinner : ∀ ns (f : gset hexagon),
    (∀ n, n ∈ f → n ∉ b) →
    ∀ n, n ∈ foldl (fun f n => if bool_decide (n ∈ b) then f else {[n]} ∪ f)
                f ns → n ∉ b).
  { induction ns as [|n' ns IH]; intros f Hf; simpl; [done|].
    apply IH. case_bool_decide as Hn'; [done|].
    intros n [->%elem_of_singleton|Hn]%elem_of_union; auto. }
  assert (Houter : ∀ hs (f : gset hexagon),
    (∀ n, n ∈ f → n ∉ b) →
    ∀ n, n ∈ foldl (fun f h =>
                foldl (fun f n => if bool_decide (n ∈ b) then f else {[n]} ∪ f)
                  f (neighbours h)) f hs → n ∉ b).
  { induction hs as [|h hs IH]; intros f Hf; simpl; [done|].
    apply IH. by apply Hinner. }
  apply Houter. intros n Hn. by apply not_elem_of_empty in Hn.
Qed.

Lemma foldM_invariant {St X} (I : St → Prop) (body : St → X → result St) xs s :
  I s →
  (∀ s x, x ∈ xs → I s → ∃ s', body s x = Ok s' ∧ I s') →
  ∃ s', foldM body s xs = Ok s' ∧ I s'.
Proof.
  revert s. induction xs as [|x xs IH]; intros s Hs Hbody; simpl; [eauto|].
  destruct (Hbody s x) as (s1 & -> & Hs1); [left|done|]. simpl.
  apply IH; [done|]. intros s2 y Hy. apply Hbody. by right.
Qed.

Lemma repeatM_invariant {St} (I : nat → St → Prop) (body : St → result St) n s :
  I O s →
  (∀ k s, I k s → ∃ s', body s = Ok s' ∧ I (S k) s') →
  ∃ s', repeatM n body s = Ok s' ∧ I n s'.
Proof.
  intros Hs Hbody.
  assert (Hgen : ∀ n k s, I k s →
            ∃ s', repeatM n body s = Ok s' ∧ I (n + k)%nat s').
  { clear n s Hs. induction n as [|n IH]; intros k s Hs; simpl; [eauto|].
    destruct (Hbody k s Hs) as (s1 & -> & Hs1). simpl.
    destruct (IH _ _ Hs1) as (s2 & -> & Hs2). exists s2. split; [done|].
    by replace (S (n + k)) with (n + S k)%nat by lia. }
  destruct (Hgen n O s Hs) as (s' & -> & Hs'). exists s'.
  by rewrite Nat.add_0_r in Hs'.
Qed.

Lemma to_canonical_grow size b hex :
  polyhex size b → hex ∉ b →
  ∃ c, to_canonical (b ++ [hex]) = Ok c ∧ polyhex (S size) c.
Proof.
  intros [Hlen Hnd] Hhex.
  assert (Hne : b ++ [hex] ≠ []) by by destruct b.
  destruct (to_canonical_spec _ Hne) as (c & Hc & _).
  exists c. split; [done|]. split.
  - rewrite (to_canonical_length _ _ Hne Hc), length_app. simpl. lia.
  - apply (to_canonical_NoDup _ _ Hne Hc). apply NoDup_app. split; [done|].
    split; [|apply NoDup_singleton].
    intros x Hx ->%list_elem_of_singleton. done.
Qed.

Lemma list_of_benzenoids_generation n :
  ∃ l,
    repeatM n (fun l =>
      let* l_new :=
        foldM (fun (l_new : gset (list hexagon)) b =>
          let f := layer_of_fat b in
          foldM (fun (l_new : gset (list hexagon)) hex =>
            let* c := to_canonical (b ++ [hex]) in
            Ok ({[c]} ∪ l_new)) l_new f) ∅ l in
      Ok (elements l_new)) [[(0, 0)]] = Ok l
    ∧ ∀ b, b ∈ l → polyhex (S n) b.
Proof.
  apply (repeatM_invariant
           (fun k l => ∀ b, b ∈ l → polyhex (S k) b)).
  - intros b ->%list_elem_of_singleton. split; [done|]. apply NoDup_singleton.
  - intros k l Hl.
    destruct (foldM_invariant
      (fun l_new : gset (list hexagon) =>
         ∀ c, c ∈ l_new → polyhex (S (S k)) c)
      (fun (l_new : gset (list hexagon)) b =>
          let f := layer_of_fat b in
          foldM (fun (l_new : gset (list hexagon)) hex =>
            let* c := to_canonical (b ++ [hex]) in
            Ok ({[c]} ∪ l_new)) l_new f) l ∅) as (l_new & -> & Hnew).
    + intros c Hc. by apply not_elem_of_empty in Hc.
    + intros s b Hb Hs. cbv zeta.
      apply (foldM_invariant
        (fun l_new : gset (list hexagon) =>
           ∀ c, c ∈ l_new → polyhex (S (S k)) c)); [done|].
      intros s' hex Hhex Hs'.
      destruct (to_canonical_grow (S k) b hex) as (c & -> & Hc);
        [by apply Hl|by apply layer_of_fat_not_elem_of|].
      simpl. eexists. split; [done|].
      intros c' [->%elem_of_singleton|Hc']%elem_of_union; auto.
    + simpl. eexists. split; [done|].
      intros b Hb%elem_of_elements. by apply Hnew.
Qed.

#[local] Instance lex_le_trans : Transitive lex_le.
Proof. intros p q r. unfold lex_le. lia. Qed.

#[local] Instance lex_le_antisymm : AntiSymm (=) lex_le.
Proof.
  intros [a b] [c d]. unfold lex_le. simpl. intros ??. f_equal; lia.
Qed.

Lemma tuple_le_lex_le p q : tuple_le p q ↔ lex_le p q.
Proof. unfold tuple_le, lex_le. rewrite tuple_ltb_false. lia. Qed.

Lemma Sorted_tuple_le_lex_le l : Sorted tuple_le l → Sorted lex_le l.
Proof.
  induction 1 as [|p l Hl IH Hp]; constructor; [done|].
  destruct Hp; constructor. by apply tuple_le_lex_le.
Qed.

Lemma is_min_least m zs : is_min Z.ltb m zs ↔ least m zs.
Proof.
  unfold is_min, least. split; intros [Hm Hle]; (split; [done|]);
    intros z Hz; specialize (Hle z Hz).
  - by apply Z.ltb_ge in Hle.
  - by apply Z.ltb_ge.
Qed.

Lemma least_unique m m' zs : least m zs → least m' zs → m = m'.
Proof. intros [Hm Hle] [Hm' Hle']. specialize (Hle _ Hm'). specialize (Hle' _ Hm). lia. Qed.

Lemma norm_translate_to_canonical_origin b :
  b ≠ [] → translate_to_canonical_origin b (norm b).
Proof.
  intros Hne. exists (zmin (map fst b)), (zmin (map snd b)).
  split; [by apply is_min_least, zmin_is_min, map_nonempty|].
  split; [by apply is_min_least, zmin_is_min, map_nonempty|].
  split; [apply norm_Permutation|].
  apply Sorted_tuple_le_lex_le, sorted_Sorted.
Qed.

Lemma translate_to_canonical_origin_unique b out out' :
  translate_to_canonical_origin b out →
  translate_to_canonical_origin b out' → out' = out.
Proof.
  intros (mi & mj & Hi & Hj & Hp & Hs) (mi' & mj' & Hi' & Hj' & Hp' & Hs').
  rewrite (least_unique _ _ _ Hi' Hi), (least_unique _ _ _ Hj' Hj) in Hp'.
  apply (Sorted_unique lex_le); [done..|]. by rewrite Hp, Hp'.
Qed.

Lemma translate_to_canonical_origin_zero b out :
  b ≠ [] → translate_to_canonical_origin b out →
  least 0 (map fst out) ∧ least 0 (map snd out).
Proof.
  intros Hne (mi & mj & [Hi Hile] & [Hj Hjle] & Hp & _).
  fold (shift mi mj b) in Hp. split; split.
  - apply (elem_of_map_fst_shift mi mj b out 0 Hp). exists mi. split; [done|lia].
  - intros w (z & Hz & ->)%(elem_of_map_fst_shift mi mj b out _ Hp).
    specialize (Hile z Hz). lia.
  - apply (elem_of_map_snd_shift mi mj b out 0 Hp). exists mj. split; [done|lia].
  - intros w (z & Hz & ->)%(elem_of_map_snd_shift mi mj b out _ Hp).
    specialize (Hjle z Hz). lia.
Qed.

(** * The claims *)

(** C1. For every non-empty system [b] and each of the twelve symmetry
    transforms [T] — [k] applications of [rotation_60], [0 <= k <= 5], with
    an optional [reflection] applied before or after the turns —
    [to_canonical (T b)] returns the value [to_canonical b] returns. *)
Theorem to_canonical_symmetry (b : list hexagon) (k : nat) :
  b ≠ [] → (k ≤ 5)%nat →
  ∃ c, to_canonical b = Ok c
     ∧ to_canonical (Nat.iter k rotation_60 b) = Ok c
     ∧ to_canonical (Nat.iter k rotation_60 (reflection b)) = Ok c
     ∧ to_canonical (reflection (Nat.iter k rotation_60 b)) = Ok c.
Proof.
  intros Hb _. destruct (to_canonical_spec b Hb) as (c & Hc & _).
  exists c. split; [done|]. split; [|split].
  - by rewrite to_canonical_iter_rotation_60.
  - rewrite to_canonical_iter_rotation_60 by by apply reflection_nonempty.
    by rewrite to_canonical_reflection.
  - rewrite to_canonical_reflection by by apply iter_rotation_60_nonempty.
    by rewrite to_canonical_iter_rotation_60.
Qed.

Lemma to_canonical_symmetry_witness :
  ∃ c, to_canonical [(0, 0); (0, 1); (1, 1)] = Ok c
     ∧ to_canonical (Nat.iter 2 rotation_60 [(0, 0); (0, 1); (1, 1)]) = Ok c
     ∧ to_canonical
         (Nat.iter 2 rotation_60 (reflection [(0, 0); (0, 1); (1, 1)])) = Ok c
     ∧ to_canonical
         (reflection (Nat.iter 2 rotation_60 [(0, 0); (0, 1); (1, 1)])) = Ok c.
Proof.
  apply (to_canonical_symmetry [(0, 0); (0, 1); (1, 1)] 2); [discriminate|lia].
Defined.

(** C2. For every non-empty system [b], the canonical form of the canonical
    form of [b] is the canonical form of [b]. *)
Theorem to_canonical_idempotent (b : list hexagon) :
  b ≠ [] → ∃ c, to_canonical b = Ok c ∧ to_canonical c = Ok c.
Proof.
  intros Hb. destruct (to_canonical_spec b Hb) as (c & Hc & _).
  exists c. split; [done|].
  destruct (to_canonical_in_orbit b c Hb Hc) as (k & mirror & ->).
  unfold image.
  assert (Hx : (if mirror then reflection b else b) ≠ [])
    by (destruct mirror; by try apply reflection_nonempty).
  rewrite <- (to_canonical_similar
                (Nat.iter k rotation_60 (if mirror then reflection b else b)));
    [|by apply iter_rotation_60_nonempty|apply similar_norm].
  rewrite to_canonical_iter_rotation_60 by done.
  destruct mirror; [by rewrite to_canonical_reflection|done].
Qed.

Lemma to_canonical_idempotent_witness :
  ∃ c, to_canonical [(2, 5); (3, 4); (3, 5)] = Ok c ∧ to_canonical c = Ok c.
Proof. apply (to_canonical_idempotent [(2, 5); (3, 4); (3, 5)]). discriminate. Defined.

(** C3. For every [h >= 1], [list_of_benzenoids h] returns a list, and
    every tuple in it holds exactly [h] coordinate pairs, which are pairwise
    distinct. *)
Theorem list_of_benzenoids_size (h : Z) :
  1 ≤ h →
  ∃ l, list_of_benzenoids h = Ok l
     ∧ ∀ b, b ∈ l → length b = Z.to_nat h ∧ NoDup b.
Proof.
  intros Hh. unfold list_of_benzenoids.
  destruct (list_of_benzenoids_generation (Z.to_nat (h - 1)))
    as (l & Hrun & Hl).
  exists l. split; [exact Hrun|]. intros b Hb. destruct (Hl b Hb) as [Hlen Hnd].
  split; [|done]. rewrite Hlen. lia.
Qed.

Lemma list_of_benzenoids_size_witness :
  ∃ l, list_of_benzenoids 3 = Ok l
     ∧ ∀ b, b ∈ l → length b = Z.to_nat 3 ∧ NoDup b.
Proof. apply (list_of_benzenoids_size 3). lia. Defined.

(** C4. [list_of_benzenoids 1] is the one-element list [[((0,0),)]],
    [list_of_benzenoids 2] holds exactly one canonical system and
    [list_of_benzenoids 3] exactly three. *)
Theorem list_of_benzenoids_small_counts :
  list_of_benzenoids 1 = Ok [[(0, 0)]]
  ∧ (∃ l, list_of_benzenoids 2 = Ok l ∧ length l = 1%nat ∧ NoDup l)
  ∧ (∃ l, list_of_benzenoids 3 = Ok l ∧ length l = 3%nat ∧ NoDup l).
Proof.
  split; [done|]. split.
  - exists [[(0, 0); (0, 1)]]. split; [by vm_compute|]. split; [done|].
    apply NoDup_singleton.
  - exists [[(0, 0); (0, 1); (1, 0)]; [(0, 0); (0, 1); (1, 1)];
            [(0, 0); (0, 1); (0, 2)]].
    split; [by vm_compute|]. split; [done|].
    apply (bool_decide_unpack _). by vm_compute.
Qed.

(** C5. The canonical form does not change under translation: for every
    non-empty system [b] and all integers [di], [dj], adding [(di, dj)] to
    every coordinate of [b] leaves [to_canonical] unchanged. *)
Theorem to_canonical_translation (b : list hexagon) (di dj : Z) :
  b ≠ [] →
  ∃ c, to_canonical b = Ok c
     ∧ to_canonical (map (fun '(i, j) => (i + di, j + dj)) b) = Ok c.
Proof.
  intros Hb. destruct (to_canonical_spec b Hb) as (c & Hc & _).
  exists c. split; [done|]. rewrite <- Hc. symmetry.
  apply to_canonical_similar; [done|]. exists (- di), (- dj).
  apply Permutation_refl'. unfold shift. apply map_ext.
  intros [i j]. f_equal; lia.
Qed.

Lemma to_canonical_translation_witness :
  ∃ c, to_canonical [(0, 0); (0, 1); (1, 0)] = Ok c
     ∧ to_canonical [(1, 2); (1, 3); (2, 2)] = Ok c.
Proof.
  apply (to_canonical_translation [(0, 0); (0, 1); (1, 0)] 1 2). discriminate.
Defined.

(** C6, as the specification states it, fails: on [b = [(0,0)]] and
    [c = (0,0)] the canonical form of [b] with [c] appended again is
    [((0,0),(0,0))], not [((0,0),)]. *)
Lemma to_canonical_duplicate_counterexample :
  ¬ (∀ (b : list hexagon) (c : hexagon),
       b ≠ [] → c ∈ b → to_canonical (b ++ [c]) = to_canonical b).
Proof.
  intros H. specialize (H [(0, 0)] (0, 0)).
  assert (Hne : [(0, 0)] ≠ ([] : list hexagon)) by discriminate.
  specialize (H Hne (list_elem_of_here _ _)). vm_compute in H. discriminate H.
Qed.

(** C6, amended. A coordinate that occurs twice in the input is not an
    error, and it is kept twice: for every non-empty system [b] and every
    [c] in [b], [to_canonical] of [b] with [c] appended again returns a
    tuple of [len b + 1] coordinates with a repeated coordinate, so it
    differs from [to_canonical b], which has [len b] coordinates. *)
Theorem to_canonical_duplicate_kept (b : list hexagon) (c : hexagon) :
  b ≠ [] → c ∈ b →
  ∃ x y, to_canonical (b ++ [c]) = Ok x ∧ to_canonical b = Ok y
       ∧ length x = S (length b) ∧ length y = length b
       ∧ ¬ NoDup x ∧ x ≠ y.
Proof.
  intros Hb Hc.
  assert (Hne : b ++ [c] ≠ []) by by destruct b.
  destruct (to_canonical_spec _ Hne) as (x & Hx & _).
  destruct (to_canonical_spec _ Hb) as (y & Hy & _).
  pose proof (to_canonical_length _ _ Hne Hx) as Hlx.
  pose proof (to_canonical_length _ _ Hb Hy) as Hly.
  rewrite length_app in Hlx. simpl in Hlx.
  exists x, y. repeat split; [done|done|lia|done| |].
  - rewrite (to_canonical_NoDup _ _ Hne Hx).
    intros (_ & Hdisj & _)%NoDup_app.
    apply (Hdisj c Hc). left.
  - intros ->. lia.
Qed.

Lemma to_canonical_duplicate_kept_witness :
  ∃ x y, to_canonical ([(0, 0); (1, 0)] ++ [(1, 0)]) = Ok x
       ∧ to_canonical [(0, 0); (1, 0)] = Ok y
       ∧ length x = 3%nat ∧ length y = 2%nat
       ∧ ¬ NoDup x ∧ x ≠ y.
Proof.
  apply (to_canonical_duplicate_kept [(0, 0); (1, 0)] (1, 0));
    [discriminate|right; left].
Defined.

(** C7. On the empty system [to_canonical_trans], and so [to_canonical],
    raise an error — the minimum of an empty collection — and return no
    value. *)
Theorem to_canonical_empty :
  to_canonical_trans [] = Raise ValueError
  ∧ to_canonical [] = Raise ValueError.
Proof. split; reflexivity. Qed.

(** C8. For every non-empty system [b], [to_canonical_trans b] is [b] with
    the minimum [i] and the minimum [j], taken independently, subtracted
    from every coordinate, sorted lexicographically; this value is the only
    one that fits the description, and the minimum [i] and the minimum [j]
    over it are both [0]. *)
Theorem to_canonical_trans_correct (b : list hexagon) :
  b ≠ [] →
  ∃ out, to_canonical_trans b = Ok out
       ∧ translate_to_canonical_origin b out
       ∧ (∀ out', translate_to_canonical_origin b out' → out' = out)
       ∧ least 0 (map fst out) ∧ least 0 (map snd out).
Proof.
  intros Hb. exists (norm b).
  pose proof (norm_translate_to_canonical_origin b Hb) as Hspec.
  split; [by apply to_canonical_trans_norm|]. split; [done|]. split.
  - intros out'. by apply translate_to_canonical_origin_unique.
  - by apply (translate_to_canonical_origin_zero b).
Qed.

Lemma to_canonical_trans_correct_witness :
  ∃ out, to_canonical_trans [(1, 3); (2, 2); (1, 2)] = Ok out
       ∧ translate_to_canonical_origin [(1, 3); (2, 2); (1, 2)] out
       ∧ (∀ out', translate_to_canonical_origin [(1, 3); (2, 2); (1, 2)] out'
                  → out' = out)
       ∧ least 0 (map fst out) ∧ least 0 (map snd out).
Proof.
  apply (to_canonical_trans_correct [(1, 3); (2, 2); (1, 2)]). discriminate.
Defined.

(** C9. For every integer [h <= 1], zero and the negative integers
    included, [list_of_benzenoids h] raises nothing and returns exactly
    [[((0,0),)]]: the loop runs zero times. *)
Theorem list_of_benzenoids_nonpositive (h : Z) :
  h ≤ 1 → list_of_benzenoids h = Ok [[(0, 0)]].
Proof.
  intros Hh. unfold list_of_benzenoids.
  by replace (Z.to_nat (h - 1)) with O by lia.
Qed.

Lemma list_of_benzenoids_nonpositive_witness :
  list_of_benzenoids (-3) = Ok [[(0, 0)]].
Proof. apply (list_of_benzenoids_nonpositive (-3)). lia. Defined.

(** C10. The symmetry maps preserve adjacency: when [rotation_60], or
    [reflection], sends the hexagons [a] and [b] to [a'] and [b'], [b] is a
    neighbour of [a] if and only if [b'] is a neighbour of [a']. *)
Theorem symmetry_preserves_adjacency (a b a' b' : hexagon) :
  rotation_60 [a; b] = [a'; b'] ∨ reflection [a; b] = [a'; b'] →
  b ∈ neighbours a ↔ b' ∈ neighbours a'.
Proof.
  destruct a as [i j], b as [u v].
  intros [[= <- <-]|[= <- <-]]; unfold neighbours;
    rewrite !elem_of_cons, !elem_of_nil;
    split; intros H; decompose [or] H; clear H; try done;
    match goal with
    | E : (_, _) = (_, _) |- _ => injection E as ??
    end;
    repeat (first [left; f_equal; lia | right]).
Qed.

Lemma symmetry_preserves_adjacency_witness :
  (1, 0) ∈ neighbours (0, 0) ↔ (1, -1) ∈ neighbours (0, 0).
Proof.
  apply (symmetry_preserves_adjacency (0, 0) (1, 0) (0, 0) (1, -1)).
  left. reflexivity.
Defined.

(** * Further properties of the program *)

(** ** Similarity and congruence are equivalences *)

Lemma shift_zero x : shift 0 0 x = x.
Proof.
  unfold shift. rewrite <- (map_id x) at 2. apply map_ext.
  intros [i j]. f_equal; lia.
Qed.

#[local] Instance shift_Permutation di dj :
  Proper ((≡ₚ) ==> (≡ₚ)) (shift di dj).
Proof. intros x y H. by apply Permutation_map. Qed.

Lemma similar_sym x y : similar x y → similar y x.
Proof.
  intros (di & dj & Hy). exists (- di), (- dj).
  rewrite Hy, shift_shift.
  replace (- di + di) with 0 by lia. replace (- dj + dj) with 0 by lia.
  by rewrite shift_zero.
Qed.

Lemma similar_trans x y z : similar x y → similar y z → similar x z.
Proof.
  intros (di & dj & Hy) (di' & dj' & Hz). exists (di' + di), (dj' + dj).
  by rewrite Hz, Hy, shift_shift.
Qed.

Lemma similar_Permutation x y : x ≡ₚ y → similar x y.
Proof. intros H. exists 0, 0. by rewrite shift_zero. Qed.

Lemma norm_eq_similar x y : norm x = norm y → similar x y.
Proof.
  intros H. apply (similar_trans _ (norm x)); [apply similar_norm|].
  rewrite H. apply similar_sym, similar_norm.
Qed.

Lemma similar_symmetry k mirror x y :
  similar x y → similar (symmetry k mirror x) (symmetry k mirror y).
Proof.
  intros H. unfold symmetry.
  assert (H0 : similar (if mirror then reflection x else x)
                       (if mirror then reflection y else y))
    by (destruct mirror; by try apply similar_reflection).
  induction k as [|k IH]; [done|].
  rewrite !Nat.iter_succ. by apply similar_rotation_60.
Qed.

Lemma symmetry_nonempty k mirror b : b ≠ [] → symmetry k mirror b ≠ [].
Proof.
  intros Hb. apply iter_rotation_60_nonempty.
  destruct mirror; by try apply reflection_nonempty.
Qed.

Lemma reflection_iter_rotation_60 n x :
  reflection (Nat.iter n rotation_60 x)
  = Nat.iter (5 * n) rotation_60 (reflection x).
Proof.
  induction n as [|n IH]; [done|].
  rewrite Nat.iter_succ, reflection_rotation_60, IH, <- Nat.iter_add.
  f_equal. lia.
Qed.

Lemma symmetry_compose k m k' m' :
  ∃ k'' m'', ∀ x, symmetry k' m' (symmetry k m x) = symmetry k'' m'' x.
Proof.
  unfold symmetry. destruct m'.
  - exists (k' + 5 * k)%nat, (negb m). intros x.
    rewrite reflection_iter_rotation_60, <- Nat.iter_add.
    destruct m; simpl; by rewrite ?reflection_reflection.
  - exists (k' + k)%nat, m. intros x. by rewrite <- Nat.iter_add.
Qed.

Lemma symmetry_inverse k m :
  ∃ k' m', ∀ x, symmetry k' m' (symmetry k m x) = x.
Proof.
  unfold symmetry. destruct m.
  - exists k, true. intros x.
    rewrite reflection_iter_rotation_60, <- Nat.iter_add.
    rewrite reflection_reflection.
    replace (k + 5 * k)%nat with (k * 6)%nat by lia.
    apply rotation_60_iter_six.
  - exists (5 * k)%nat, false. intros x. rewrite <- Nat.iter_add.
    replace (5 * k + k)%nat with (k * 6)%nat by lia.
    apply rotation_60_iter_six.
Qed.

Lemma congruent_refl x : congruent x x.
Proof. exists O, false. apply similar_refl. Qed.

Lemma congruent_sym x y : congruent x y → congruent y x.
Proof.
  intros (k & m & H). destruct (symmetry_inverse k m) as (k' & m' & Hinv).
  exists k', m'. rewrite <- (Hinv x).
  by apply similar_symmetry, similar_sym.
Qed.

Lemma congruent_trans x y z : congruent x y → congruent y z → congruent x z.
Proof.
  intros (k & m & Hxy) (k' & m' & Hyz).
  destruct (symmetry_compose k m k' m') as (k'' & m'' & Hc).
  exists k'', m''. rewrite <- Hc.
  eapply similar_trans; [|done]. by apply similar_symmetry.
Qed.

Lemma to_canonical_of_symmetry k mirror b :
  b ≠ [] → to_canonical (symmetry k mirror b) = to_canonical b.
Proof.
  intros Hb. unfold symmetry.
  rewrite to_canonical_iter_rotation_60
    by (destruct mirror; by try apply reflection_nonempty).
  destruct mirror; [by apply to_canonical_reflection|done].
Qed.

Lemma to_canonical_congruent x y :
  x ≠ [] → congruent x y → to_canonical y = to_canonical x.
Proof.
  intros Hx (k & m & H).
  rewrite <- (to_canonical_similar (symmetry k m x) y);
    [|by apply symmetry_nonempty|done].
  by apply to_canonical_of_symmetry.
Qed.

Lemma in_orbit_congruent b y : in_orbit b y → congruent b y.
Proof. intros (k & m & ->). exists k, m. apply similar_norm. Qed.

Lemma to_canonical_eq_congruent x y c :
  x ≠ [] → y ≠ [] → to_canonical x = Ok c → to_canonical y = Ok c →
  congruent x y.
Proof.
  intros Hx Hy Hcx Hcy.
  apply (congruent_trans _ c).
  - by apply in_orbit_congruent, to_canonical_in_orbit.
  - by apply congruent_sym, in_orbit_congruent, to_canonical_in_orbit.
Qed.

Lemma norm_idempotent b : b ≠ [] → norm (norm b) = norm b.
Proof. intros Hb. symmetry. apply norm_similar; [done|apply similar_norm]. Qed.

Lemma to_canonical_ok b : b ≠ [] → ∃ c, to_canonical b = Ok c.
Proof. intros Hb. destruct (to_canonical_spec b Hb) as (c & Hc & _). eauto. Qed.

(** ** [are_isomorphic] *)

(** X1. On non-empty systems [are_isomorphic] returns a Boolean, and it is
    [True] exactly when the second system is a rearranged translate of one
    of the twelve symmetric images of the first: equal canonical forms mean
    equal shapes, and conversely. *)
Theorem are_isomorphic_congruent (b1 b2 : list hexagon) :
  b1 ≠ [] → b2 ≠ [] →
  ∃ r, are_isomorphic b1 b2 = Ok r ∧ (r = true ↔ congruent b1 b2).
Proof.
  intros H1 H2. unfold are_isomorphic.
  destruct (to_canonical_ok b1 H1) as (c1 & Hc1).
  destruct (to_canonical_ok b2 H2) as (c2 & Hc2).
  rewrite Hc1, Hc2. cbn [bind]. eexists. split; [done|].
  rewrite bool_decide_eq_true. split.
  - intros <-. by apply (to_canonical_eq_congruent b1 b2 c1).
  - intros Hcg. apply (to_canonical_congruent b1 b2 H1) in Hcg. congruence.
Qed.

Lemma are_isomorphic_congruent_witness :
  ∃ r, are_isomorphic [(0, 0); (0, 1); (1, 1)] [(4, 7); (5, 6); (5, 7)] = Ok r
     ∧ (r = true
        ↔ congruent [(0, 0); (0, 1); (1, 1)] [(4, 7); (5, 6); (5, 7)]).
Proof.
  apply (are_isomorphic_congruent
           [(0, 0); (0, 1); (1, 1)] [(4, 7); (5, 6); (5, 7)]); discriminate.
Defined.

(** X2. On non-empty systems [are_isomorphic] is an equivalence: it is
    [True] on a system and itself, it does not depend on the order of its
    arguments, and it is transitive. *)
Theorem are_isomorphic_equivalence (b1 b2 b3 : list hexagon) :
  b1 ≠ [] → b2 ≠ [] → b3 ≠ [] →
  are_isomorphic b1 b1 = Ok true
  ∧ are_isomorphic b1 b2 = are_isomorphic b2 b1
  ∧ (are_isomorphic b1 b2 = Ok true → are_isomorphic b2 b3 = Ok true →
     are_isomorphic b1 b3 = Ok true).
Proof.
  intros H1 H2 H3. unfold are_isomorphic.
  destruct (to_canonical_ok b1 H1) as (c1 & ->).
  destruct (to_canonical_ok b2 H2) as (c2 & ->).
  destruct (to_canonical_ok b3 H3) as (c3 & ->).
  cbn [bind]. split; [|split].
  - by rewrite bool_decide_eq_true_2.
  - f_equal. apply bool_decide_ext. split; congruence.
  - intros [= ?%bool_decide_eq_true] [= ?%bool_decide_eq_true].
    rewrite bool_decide_eq_true_2; congruence.
Qed.

Lemma are_isomorphic_equivalence_witness :
  are_isomorphic [(0, 0); (0, 1)] [(0, 0); (0, 1)] = Ok true
  ∧ are_isomorphic [(0, 0); (0, 1)] [(2, 2); (3, 2)]
    = are_isomorphic [(2, 2); (3, 2)] [(0, 0); (0, 1)]
  ∧ (are_isomorphic [(0, 0); (0, 1)] [(2, 2); (3, 2)] = Ok true →
     are_isomorphic [(2, 2); (3, 2)] [(5, 1); (4, 2)] = Ok true →
     are_isomorphic [(0, 0); (0, 1)] [(5, 1); (4, 2)] = Ok true).
Proof.
  apply (are_isomorphic_equivalence
           [(0, 0); (0, 1)] [(2, 2); (3, 2)] [(5, 1); (4, 2)]); discriminate.
Defined.

(** X3. [are_isomorphic] raises [ValueError] as soon as one of the two
    systems is empty. *)
Theorem are_isomorphic_empty (b : list hexagon) :
  are_isomorphic [] b = Raise ValueError
  ∧ are_isomorphic b [] = Raise ValueError.
Proof.
  split; [done|]. unfold are_isomorphic. destruct b as [|p b]; [done|].
  destruct (to_canonical_ok (p :: b)) as (c & ->); done.
Qed.

(** ** [to_canonical_trans] and [to_canonical] *)

(** X4. Two non-empty systems have the same [to_canonical_trans] exactly
    when one is a rearranged translate of the other: the result forgets the
    position and the order of the hexagons, and nothing else. *)
Theorem to_canonical_trans_eq_iff (b b' : list hexagon) :
  b ≠ [] → b' ≠ [] →
  to_canonical_trans b = to_canonical_trans b'
  ↔ ∃ di dj, b' ≡ₚ map (fun '(i, j) => (i - di, j - dj)) b.
Proof.
  intros Hb Hb'. rewrite !to_canonical_trans_norm by done. split.
  - intros [= H]. by apply norm_eq_similar.
  - intros H. f_equal. by apply norm_similar.
Qed.

Lemma to_canonical_trans_eq_iff_witness :
  to_canonical_trans [(1, 2); (1, 3); (2, 2)]
  = to_canonical_trans [(7, 0); (6, 1); (6, 0)]
  ↔ ∃ di dj, [(7, 0); (6, 1); (6, 0)]
             ≡ₚ map (fun '(i, j) => (i - di, j - dj)) [(1, 2); (1, 3); (2, 2)].
Proof.
  apply (to_canonical_trans_eq_iff
           [(1, 2); (1, 3); (2, 2)] [(7, 0); (6, 1); (6, 0)]); discriminate.
Defined.

(** X5. [to_canonical_trans] is idempotent: applied to its own result on a
    non-empty system it returns that result again. *)
Theorem to_canonical_trans_idempotent (b : list hexagon) :
  b ≠ [] →
  ∃ out, to_canonical_trans b = Ok out ∧ to_canonical_trans out = Ok out.
Proof.
  intros Hb. exists (norm b). split; [by apply to_canonical_trans_norm|].
  rewrite to_canonical_trans_norm by by apply norm_nonempty.
  by rewrite norm_idempotent.
Qed.

Lemma to_canonical_trans_idempotent_witness :
  ∃ out, to_canonical_trans [(3, -1); (2, 0)] = Ok out
       ∧ to_canonical_trans out = Ok out.
Proof. apply (to_canonical_trans_idempotent [(3, -1); (2, 0)]). discriminate. Defined.

(** X6. The canonical form does not depend on the order in which the
    hexagons of the system are listed. *)
Theorem to_canonical_Permutation (b b' : list hexagon) :
  b ≠ [] → b ≡ₚ b' →
  ∃ c, to_canonical b = Ok c ∧ to_canonical b' = Ok c.
Proof.
  intros Hb Hp. destruct (to_canonical_ok b Hb) as (c & Hc).
  exists c. split; [done|]. rewrite <- Hc. symmetry.
  apply to_canonical_similar; [done|]. by apply similar_Permutation.
Qed.

Lemma to_canonical_Permutation_witness :
  ∃ c, to_canonical [(0, 0); (0, 1); (1, 1)] = Ok c
     ∧ to_canonical [(1, 1); (0, 0); (0, 1)] = Ok c.
Proof.
  apply (to_canonical_Permutation [(0, 0); (0, 1); (1, 1)]); [discriminate|].
  symmetry. apply (Permutation_cons_append [(0, 0); (0, 1)] (1, 1)).
Defined.

(** X7. The canonical form of a non-empty system is the normalised image
    of the system under one of the twelve symmetries, and no normalised
    symmetric image of the system is lexicographically smaller. *)
Theorem to_canonical_least_image (b : list hexagon) :
  b ≠ [] →
  ∃ c, to_canonical b = Ok c
     ∧ (∃ k mirror, (k ≤ 5)%nat
          ∧ to_canonical_trans (symmetry k mirror b) = Ok c)
     ∧ ∀ k mirror y, to_canonical_trans (symmetry k mirror b) = Ok y →
                     Py.seq_ltb y c = false.
Proof.
  intros Hb. destruct (to_canonical_spec b Hb) as (c & Hc & Hin & Hle).
  exists c. split; [done|]. split.
  - apply elem_of_images in Hin as (k & mirror & ->); [|done].
    exists (k mod 6)%nat, mirror. split.
    + pose proof (Nat.mod_upper_bound k 6). lia.
    + unfold symmetry. rewrite <- rotation_60_iter_mod.
      by apply to_canonical_trans_norm, symmetry_nonempty.
  - intros k mirror y Hy.
    rewrite to_canonical_trans_norm in Hy by by apply symmetry_nonempty.
    injection Hy as <-. apply Hle, elem_of_images; [done|]. by exists k, mirror.
Qed.

Lemma to_canonical_least_image_witness :
  ∃ c, to_canonical [(0, 0); (1, 0); (1, 1)] = Ok c
     ∧ (∃ k mirror, (k ≤ 5)%nat
          ∧ to_canonical_trans (symmetry k mirror [(0, 0); (1, 0); (1, 1)])
            = Ok c)
     ∧ ∀ k mirror y,
         to_canonical_trans (symmetry k mirror [(0, 0); (1, 0); (1, 1)]) = Ok y →
         Py.seq_ltb y c = false.
Proof. apply (to_canonical_least_image [(0, 0); (1, 0); (1, 1)]). discriminate. Defined.

(** X8. The canonical form of a non-empty system is already at the origin
    and sorted — [to_canonical_trans] leaves it unchanged — and it has as
    many coordinates as the system. *)
Theorem to_canonical_normalised (b : list hexagon) :
  b ≠ [] →
  ∃ c, to_canonical b = Ok c
     ∧ to_canonical_trans c = Ok c
     ∧ Sorted lex_le c
     ∧ length c = length b.
Proof.
  intros Hb. destruct (to_canonical_ok b Hb) as (c & Hc).
  exists c. split; [done|].
  pose proof (to_canonical_length b c Hb Hc) as Hlen.
  destruct (to_canonical_in_orbit b c Hb Hc) as (k & mirror & ->).
  unfold image. fold (symmetry k mirror b).
  pose proof (symmetry_nonempty k mirror b Hb) as Hne.
  split; [|split; [|done]].
  - rewrite to_canonical_trans_norm by by apply norm_nonempty.
    by rewrite norm_idempotent.
  - apply Sorted_tuple_le_lex_le, sorted_Sorted.
Qed.

Lemma to_canonical_normalised_witness :
  ∃ c, to_canonical [(5, 5); (4, 6); (4, 5)] = Ok c
     ∧ to_canonical_trans c = Ok c
     ∧ Sorted lex_le c
     ∧ length c = length [(5, 5); (4, 6); (4, 5)].
Proof. apply (to_canonical_normalised [(5, 5); (4, 6); (4, 5)]). discriminate. Defined.

(** ** [neighbours] *)

Lemma elem_of_neighbours a b :
  b ∈ neighbours a
  ↔ (b.1 = a.1 + 1 ∧ b.2 = a.2) ∨ (b.1 = a.1 + 1 ∧ b.2 = a.2 - 1)
    ∨ (b.1 = a.1 ∧ b.2 = a.2 - 1) ∨ (b.1 = a.1 - 1 ∧ b.2 = a.2)
    ∨ (b.1 = a.1 - 1 ∧ b.2 = a.2 + 1) ∨ (b.1 = a.1 ∧ b.2 = a.2 + 1).
Proof.
  destruct a as [i j], b as [u v]. unfold neighbours.
  rewrite !elem_of_cons, elem_of_nil. simpl.
  split.
  - intros H. decompose [or] H; clear H; try done;
      match goal with E : (_, _) = (_, _) |- _ => injection E as -> -> end; lia.
  - intros H. decompose [or and] H; clear H; subst; tauto.
Qed.

Lemma adjacent_sym a b : adjacent a b → adjacent b a.
Proof. unfold adjacent. rewrite !elem_of_neighbours. lia. Qed.

Lemma adjacent_rot60 a b : adjacent a b → adjacent (rot60 a) (rot60 b).
Proof.
  unfold adjacent. rewrite !elem_of_neighbours.
  destruct a, b; simpl. lia.
Qed.

Lemma adjacent_refl a b : adjacent a b → adjacent (refl a) (refl b).
Proof.
  unfold adjacent. rewrite !elem_of_neighbours.
  destruct a, b; simpl. lia.
Qed.

Lemma adjacent_shift di dj a b :
  adjacent a b →
  adjacent (a.1 - di, a.2 - dj) (b.1 - di, b.2 - dj).
Proof. unfold adjacent. rewrite !elem_of_neighbours. simpl. lia. Qed.

(** X9. A hexagon has six neighbours, pairwise distinct, and is not its
    own neighbour. *)
Theorem neighbours_six (h : hexagon) :
  length (neighbours h) = 6%nat ∧ NoDup (neighbours h) ∧ h ∉ neighbours h.
Proof.
  destruct h as [i j]. split; [done|]. split.
  - unfold neighbours.
    repeat (apply NoDup_cons; split;
            [rewrite ?elem_of_cons, elem_of_nil;
             intros H; decompose [or] H; try done;
             match goal with E : (_, _) = (_, _) |- _ => injection E; lia end|]).
    apply NoDup_nil_2.
  - rewrite elem_of_neighbours. simpl. lia.
Qed.

(** X10. Adjacency is symmetric: [b] is a neighbour of [a] exactly when
    [a] is a neighbour of [b]. *)
Theorem neighbours_symmetric (a b : hexagon) :
  b ∈ neighbours a ↔ a ∈ neighbours b.
Proof. split; apply adjacent_sym. Qed.

(** ** [layer_of_fat] *)

Lemma layer_of_fat_inner (b ns : list hexagon) (f : gset hexagon) (n : hexagon) :
  n ∈ foldl (fun f n => if bool_decide (n ∈ b) then f else {[n]} ∪ f) f ns
  ↔ n ∈ f ∨ (n ∈ ns ∧ n ∉ b).
Proof.
  revert f. induction ns as [|n' ns IH]; intros f; simpl.
  - rewrite elem_of_nil. tauto.
  - rewrite IH, elem_of_cons. case_bool_decide as Hn'.
    + split; [tauto|]. intros [?|[[->|?] ?]]; tauto.
    + rewrite elem_of_union, elem_of_singleton.
      split; [intros [[->|?]|?]; tauto|tauto].
Qed.

Lemma layer_of_fat_outer (b hs : list hexagon) (f : gset hexagon) (n : hexagon) :
  n ∈ foldl (fun f h =>
        foldl (fun f n => if bool_decide (n ∈ b) then f else {[n]} ∪ f)
          f (neighbours h)) f hs
  ↔ n ∈ f ∨ ((n ∉ b) ∧ (∃ h, h ∈ hs ∧ n ∈ neighbours h)).
Proof.
  revert f. induction hs as [|h hs IH]; intros f; simpl.
  - split; [tauto|]. intros [?|[_ (h & Hh & _)]]; [done|].
    by apply elem_of_nil in Hh.
  - rewrite IH, layer_of_fat_inner. split.
    + intros [[?|[??]]|[? (h' & ? & ?)]]; [tauto| |].
      * right. split; [done|]. exists h. split; [left|done].
      * right. split; [done|]. exists h'. split; [by right|done].
    + intros [?|[? (h' & [->|?]%elem_of_cons & ?)]]; [tauto|tauto|].
      right. split; [done|]. by exists h'.
Qed.

Lemma elem_of_layer_of_fat b hex :
  hex ∈ layer_of_fat b ↔ (hex ∉ b) ∧ (∃ h, h ∈ b ∧ hex ∈ neighbours h).
Proof.
  unfold layer_of_fat. rewrite elem_of_elements, layer_of_fat_outer.
  rewrite elem_of_empty. tauto.
Qed.

Lemma layer_of_fat_size_inner (b ns : list hexagon) (f : gset hexagon) :
  (size (foldl (fun f n => if bool_decide (n ∈ b) then f else {[n]} ∪ f) f ns)
   ≤ size f + length ns)%nat.
Proof.
  revert f. induction ns as [|n ns IH]; intros f; simpl; [lia|].
  etrans; [apply IH|]. case_bool_decide; [lia|].
  rewrite size_union_alt, size_singleton.
  assert (size (f ∖ {[n]}) ≤ size f)%nat
    by (apply subseteq_size; intros x [Hx _]%elem_of_difference; exact Hx).
  lia.
Qed.

Lemma layer_of_fat_size_outer (b hs : list hexagon) (f : gset hexagon) :
  (size (foldl (fun f h =>
           foldl (fun f n => if bool_decide (n ∈ b) then f else {[n]} ∪ f)
             f (neighbours h)) f hs)
   ≤ size f + 6 * length hs)%nat.
Proof.
  revert f. induction hs as [|h hs IH]; intros f; simpl; [lia|].
  etrans; [apply IH|].
  pose proof (layer_of_fat_size_inner b (neighbours h) f) as Hin.
  destruct h as [i j]. simpl length in Hin. lia.
Qed.

Lemma max_fst_exists (b : list hexagon) :
  b ≠ [] → ∃ h, h ∈ b ∧ ∀ p, p ∈ b → p.1 ≤ h.1.
Proof.
  induction b as [|q b IH]; [done|]. intros _.
  destruct b as [|q' b].
  - exists q. split; [left|]. intros p ->%list_elem_of_singleton. lia.
  - destruct IH as (h & Hh & Hmax); [done|].
    destruct (decide (q.1 ≤ h.1)).
    + exists h. split; [by right|].
      intros p [->|Hp]%elem_of_cons; [done|by apply Hmax].
    + exists q. split; [left|].
      intros p [->|Hp]%elem_of_cons; [lia|]. specialize (Hmax p Hp). lia.
Qed.

Lemma layer_of_fat_nonempty b : b ≠ [] → layer_of_fat b ≠ [].
Proof.
  intros Hb. destruct (max_fst_exists b Hb) as ([i j] & Hh & Hmax).
  assert (Hin : (i + 1, j) ∈ layer_of_fat b).
  { apply elem_of_layer_of_fat. split.
    - intros Hp. specialize (Hmax _ Hp). simpl in Hmax. lia.
    - exists (i, j). split; [done|]. unfold neighbours. left. }
  intros Hnil. rewrite Hnil in Hin. by apply elem_of_nil in Hin.
Qed.

(** X11. [layer_of_fat b] lists exactly the hexagons that are not in [b]
    and are a neighbour of some hexagon of [b], each of them once. *)
Theorem layer_of_fat_spec (b : list hexagon) :
  NoDup (layer_of_fat b)
  ∧ ∀ hex, hex ∈ layer_of_fat b
           ↔ (hex ∉ b) ∧ (∃ h, h ∈ b ∧ hex ∈ neighbours h).
Proof.
  split; [unfold layer_of_fat; apply NoDup_elements|].
  intros hex. apply elem_of_layer_of_fat.
Qed.

(** X12. A non-empty system always has a cell to grow into, and a system
    never has more than six such cells per hexagon. *)
Theorem layer_of_fat_bounds (b : list hexagon) :
  b ≠ [] →
  layer_of_fat b ≠ [] ∧ (length (layer_of_fat b) ≤ 6 * length b)%nat.
Proof.
  intros Hb. split; [by apply layer_of_fat_nonempty|].
  unfold layer_of_fat.
  pose proof (layer_of_fat_size_outer b b ∅) as H.
  rewrite size_empty in H. exact H.
Qed.

Lemma layer_of_fat_bounds_witness :
  layer_of_fat [(0, 0); (0, 1)] ≠ []
  ∧ (length (layer_of_fat [(0, 0)%Z; (0, 1)%Z])
     ≤ 6 * length [(0, 0)%Z; (0, 1)%Z])%nat.
Proof. apply (layer_of_fat_bounds [(0, 0); (0, 1)]). discriminate. Defined.

(** ** [rotation_60] and [reflection] *)

(** X13. The two maps generate the symmetry group of the hexagon: six
    turns are the identity, two reflections are the identity, and a turn
    followed by the reflection is the reflection followed by five turns. *)
Theorem rotation_60_reflection_relations (b : list hexagon) :
  Nat.iter 6 rotation_60 b = b
  ∧ reflection (reflection b) = b
  ∧ reflection (rotation_60 b) = Nat.iter 5 rotation_60 (reflection b).
Proof.
  split; [apply rotation_60_six|].
  split; [apply reflection_reflection|apply reflection_rotation_60].
Qed.

(** X14. The two maps keep the number of hexagons, and they keep distinct
    hexagons distinct. *)
Theorem rotation_60_reflection_NoDup (b : list hexagon) :
  length (rotation_60 b) = length b ∧ length (reflection b) = length b
  ∧ (NoDup (rotation_60 b) ↔ NoDup b) ∧ (NoDup (reflection b) ↔ NoDup b).
Proof.
  split; [apply length_map|]. split; [apply length_map|]. split.
  - split; [apply (NoDup_fmap_1 rot60)|].
    apply (NoDup_fmap_2_strong rot60). intros p q _ _. apply rot60_inj.
  - split; [apply (NoDup_fmap_1 refl)|].
    apply (NoDup_fmap_2_strong refl). intros p q _ _. apply refl_inj.
Qed.

(** ** Connected systems *)

Lemma connected_singleton h : connected [h].
Proof. intros x y ->%list_elem_of_singleton ->%list_elem_of_singleton. done. Qed.

Lemma connected_ext s t :
  (∀ p, p ∈ s ↔ p ∈ t) → connected s → connected t.
Proof.
  intros H Hs x y Hx Hy.
  eapply (rtc_subrel (fun u v => v ∈ s ∧ adjacent u v)).
  - intros u v [Hv Ha]. split; [by apply H|done].
  - apply Hs; by apply H.
Qed.

Lemma connected_snoc s h x :
  connected s → h ∈ s → adjacent h x → connected (s ++ [x]).
Proof.
  intros Hs Hh Hadj.
  assert (Hlift : ∀ p q, p ∈ s → q ∈ s →
            rtc (fun u v => v ∈ s ++ [x] ∧ adjacent u v) p q).
  { intros p q Hp Hq.
    eapply (rtc_subrel (fun u v => v ∈ s ∧ adjacent u v)); [|by apply Hs].
    intros u v [Hv Ha]. split; [|done]. apply elem_of_app. by left. }
  assert (Hx : x ∈ s ++ [x]) by (apply elem_of_app; right; left).
  assert (Hh' : h ∈ s ++ [x]) by (apply elem_of_app; by left).
  intros p q [Hp| ->%list_elem_of_singleton]%elem_of_app
             [Hq| ->%list_elem_of_singleton]%elem_of_app.
  - by apply Hlift.
  - eapply rtc_r; [by apply (Hlift p h)|]. done.
  - eapply rtc_l; [|by apply (Hlift h q)]. split; [done|by apply adjacent_sym].
  - done.
Qed.

Lemma connected_map (f : hexagon → hexagon) s :
  (∀ a b, adjacent a b → adjacent (f a) (f b)) →
  connected s → connected (map f s).
Proof.
  intros Hf Hs x y (x0 & <- & Hx)%list_elem_of_In%in_map_iff
                   (y0 & <- & Hy)%list_elem_of_In%in_map_iff.
  apply (rtc_congruence f (fun u v => v ∈ map f s ∧ adjacent u v)
           (R := fun u v => v ∈ s ∧ adjacent u v)).
  - intros u v [Hv Ha]. split; [|by apply Hf].
    apply list_elem_of_In, in_map. by apply list_elem_of_In.
  - apply Hs; by apply list_elem_of_In.
Qed.

Lemma connected_similar x y : similar x y → connected x → connected y.
Proof.
  intros (di & dj & Hy) Hx.
  apply (connected_ext (shift di dj x)); [intros p; by rewrite Hy|].
  apply connected_map; [|done].
  intros [i j] [u v]. apply (adjacent_shift di dj (i, j) (u, v)).
Qed.

Lemma connected_rotation_60 x : connected x → connected (rotation_60 x).
Proof. apply (connected_map rot60), adjacent_rot60. Qed.

Lemma connected_reflection x : connected x → connected (reflection x).
Proof. apply (connected_map refl), adjacent_refl. Qed.

Lemma connected_symmetry k mirror x :
  connected x → connected (symmetry k mirror x).
Proof.
  intros Hx. unfold symmetry.
  assert (H0 : connected (if mirror then reflection x else x))
    by (destruct mirror; by try apply connected_reflection).
  induction k as [|k IH]; [done|].
  rewrite Nat.iter_succ. by apply connected_rotation_60.
Qed.

Lemma connected_congruent x y : congruent x y → connected x → connected y.
Proof.
  intros (k & m & H) Hx. apply (connected_similar _ _ H).
  by apply connected_symmetry.
Qed.

(** ** One generation of the growth search *)

Lemma list_of_benzenoids_unfold h :
  list_of_benzenoids h = repeatM (Z.to_nat (h - 1)) generation [[(0, 0)]].
Proof. reflexivity. Qed.

Lemma repeatM_succ_r {St} (body : St → result St) n s :
  repeatM (S n) body s = bind (repeatM n body s) body.
Proof.
  revert s. induction n as [|n IH]; intros s.
  - simpl. by destruct (body s).
  - change (bind (body s) (repeatM (S n) body)
            = bind (bind (body s) (repeatM n body)) body).
    destruct (body s) as [s'|e]; [|done]. cbn [bind]. apply IH.
Qed.

Lemma grow_one_spec (b hexes : list hexagon) (s : gset (list hexagon)) :
  ∃ s', foldM (grow_one b) s hexes = Ok s'
      ∧ ∀ c, c ∈ s' ↔ c ∈ s ∨ ∃ hex, hex ∈ hexes
                                     ∧ to_canonical (b ++ [hex]) = Ok c.
Proof.
  revert s. induction hexes as [|hex hexes IH]; intros s; simpl.
  - exists s. split; [done|]. intros c. split; [by left|].
    intros [?|(hex & Hhex & _)]; [done|]. by apply elem_of_nil in Hhex.
  - unfold grow_one at 1.
    destruct (to_canonical_ok (b ++ [hex])) as (c0 & Hc0); [by destruct b|].
    rewrite Hc0. cbn [bind].
    destruct (IH ({[c0]} ∪ s)) as (s' & -> & Hs'). exists s'. split; [done|].
    intros c. rewrite Hs', elem_of_union, elem_of_singleton. split.
    + intros [[->|?]|(hex' & Hhex' & Hc)].
      * right. exists hex. split; [left|done].
      * by left.
      * right. exists hex'. split; [by right|done].
    + intros [?|(hex' & [->|Hhex']%elem_of_cons & Hc)].
      * left. by right.
      * left. left. congruence.
      * right. by exists hex'.
Qed.

Lemma grow_spec (l : list (list hexagon)) (s : gset (list hexagon)) :
  ∃ s', foldM grow s l = Ok s'
      ∧ ∀ c, c ∈ s' ↔ c ∈ s ∨ ∃ b hex, b ∈ l ∧ hex ∈ layer_of_fat b
                                       ∧ to_canonical (b ++ [hex]) = Ok c.
Proof.
  revert s. induction l as [|b l IH]; intros s; simpl.
  - exists s. split; [done|]. intros c. split; [by left|].
    intros [?|(b & hex & Hb & _)]; [done|]. by apply elem_of_nil in Hb.
  - unfold grow at 1. cbv zeta.
    destruct (grow_one_spec b (layer_of_fat b) s) as (s1 & -> & Hs1).
    cbn [bind]. destruct (IH s1) as (s' & -> & Hs'). exists s'.
    split; [done|]. intros c. rewrite Hs', Hs1. split.
    + intros [[?|(hex & Hhex & Hc)]|(b' & hex & Hb' & Hhex & Hc)].
      * by left.
      * right. exists b, hex. split; [left|done].
      * right. exists b', hex. split; [by right|done].
    + intros [?|(b' & hex & [->|Hb']%elem_of_cons & Hhex & Hc)].
      * left. by left.
      * left. right. by exists hex.
      * right. by exists b', hex.
Qed.

Lemma generation_spec l :
  ∃ l', generation l = Ok l' ∧ NoDup l'
      ∧ ∀ c, c ∈ l' ↔ ∃ b hex, b ∈ l ∧ hex ∈ layer_of_fat b
                              ∧ to_canonical (b ++ [hex]) = Ok c.
Proof.
  unfold generation. destruct (grow_spec l ∅) as (s' & -> & Hs').
  cbn [bind]. eexists. split; [done|]. split; [apply NoDup_elements|].
  intros c. rewrite elem_of_elements, Hs', elem_of_empty. tauto.
Qed.

Lemma to_canonical_canonical x c :
  x ≠ [] → to_canonical x = Ok c → to_canonical c = Ok c.
Proof.
  intros Hx Hc. rewrite <- Hc. apply to_canonical_congruent; [done|].
  by apply in_orbit_congruent, to_canonical_in_orbit.
Qed.

Lemma polyhex_nonempty n b : polyhex (S n) b → b ≠ [].
Proof. intros [Hlen _] ->. done. Qed.

(** What holds of every generation of the search. *)
Lemma generations_invariant n :
  ∃ l, repeatM n generation [[(0, 0)]] = Ok l
     ∧ l ≠ [] ∧ NoDup l
     ∧ ∀ b, b ∈ l → polyhex (S n) b ∧ to_canonical b = Ok b ∧ connected b.
Proof.
  apply (repeatM_invariant
    (fun k l => l ≠ [] ∧ NoDup l
       ∧ ∀ b, b ∈ l → polyhex (S k) b ∧ to_canonical b = Ok b ∧ connected b)).
  - split; [done|]. split; [apply NoDup_singleton|].
    intros b ->%list_elem_of_singleton. split; [|split].
    + split; [done|apply NoDup_singleton].
    + by vm_compute.
    + apply connected_singleton.
  - intros k l (Hne & _ & Hl).
    destruct (generation_spec l) as (l' & -> & Hnd & Hl').
    exists l'. split; [done|]. split; [|split; [done|]].
    + destruct l as [|b l]; [done|].
      destruct (Hl b) as (Hb & _ & _); [left|].
      pose proof (polyhex_nonempty _ _ Hb) as Hbne.
      destruct (layer_of_fat b) as [|hex f] eqn:Hf;
        [by apply layer_of_fat_nonempty in Hf|].
      destruct (to_canonical_ok (b ++ [hex])) as (c & Hc); [by destruct b|].
      assert (Hin : c ∈ l').
      { apply Hl'. exists b, hex. split; [left|]. split; [|done].
        rewrite Hf. left. }
      intros ->. by apply elem_of_nil in Hin.
    + intros c (b & hex & Hb & Hhex & Hc)%Hl'.
      destruct (Hl b Hb) as (Hpoly & _ & Hconn).
      apply elem_of_layer_of_fat in Hhex as (Hnotin & h & Hh & Hadj).
      assert (Hne' : b ++ [hex] ≠ []) by by destruct b.
      split; [|split].
      * destruct (to_canonical_grow (S k) b hex Hpoly Hnotin) as (c' & Hc' & ?).
        congruence.
      * by apply (to_canonical_canonical (b ++ [hex])).
      * apply (connected_congruent (b ++ [hex])).
        -- by apply in_orbit_congruent, to_canonical_in_orbit.
        -- by apply (connected_snoc b h hex).
Qed.

Lemma list_of_benzenoids_invariant h :
  ∃ l, list_of_benzenoids h = Ok l
     ∧ l ≠ [] ∧ NoDup l
     ∧ ∀ b, b ∈ l → polyhex (S (Z.to_nat (h - 1))) b
                    ∧ to_canonical b = Ok b ∧ connected b.
Proof. rewrite list_of_benzenoids_unfold. apply generations_invariant. Qed.

(** ** [list_of_benzenoids] *)

(** X15. Each size class comes from the one before: for [h >= 1], a tuple
    is in [list_of_benzenoids (h + 1)] exactly when it is the canonical
    form of a system of [list_of_benzenoids h] with one hexagon of its
    layer of fat appended. *)
Theorem list_of_benzenoids_step (h : Z) :
  1 ≤ h →
  ∃ l l', list_of_benzenoids h = Ok l
        ∧ list_of_benzenoids (h + 1) = Ok l'
        ∧ ∀ c, c ∈ l' ↔ ∃ b hex, b ∈ l ∧ hex ∈ layer_of_fat b
                                ∧ to_canonical (b ++ [hex]) = Ok c.
Proof.
  intros Hh. rewrite !list_of_benzenoids_unfold.
  replace (Z.to_nat (h + 1 - 1)) with (S (Z.to_nat (h - 1))) by lia.
  rewrite repeatM_succ_r.
  destruct (generations_invariant (Z.to_nat (h - 1))) as (l & -> & _).
  cbn [bind]. destruct (generation_spec l) as (l' & -> & _ & Hl').
  by exists l, l'.
Qed.

Lemma list_of_benzenoids_step_witness :
  ∃ l l', list_of_benzenoids 2 = Ok l
        ∧ list_of_benzenoids (2 + 1) = Ok l'
        ∧ ∀ c, c ∈ l' ↔ ∃ b hex, b ∈ l ∧ hex ∈ layer_of_fat b
                                ∧ to_canonical (b ++ [hex]) = Ok c.
Proof. apply (list_of_benzenoids_step 2). lia. Defined.

(** X16. For every integer [h], [list_of_benzenoids h] returns a non-empty
    list with no repeated entry, and every system in it is in canonical
    form: [to_canonical] returns it unchanged. *)
Theorem list_of_benzenoids_canonical (h : Z) :
  ∃ l, list_of_benzenoids h = Ok l
     ∧ l ≠ [] ∧ NoDup l
     ∧ ∀ b, b ∈ l → to_canonical b = Ok b.
Proof.
  destruct (list_of_benzenoids_invariant h) as (l & Hl & Hne & Hnd & Hall).
  exists l. repeat split; try done. intros b Hb. by apply Hall.
Qed.

(** X17. No shape is listed twice: two entries of [list_of_benzenoids h]
    are isomorphic only when they are the same entry. *)
Theorem list_of_benzenoids_not_isomorphic (h : Z) :
  ∃ l, list_of_benzenoids h = Ok l
     ∧ ∀ b1 b2, b1 ∈ l → b2 ∈ l →
                are_isomorphic b1 b2 = Ok (bool_decide (b1 = b2)).
Proof.
  destruct (list_of_benzenoids_invariant h) as (l & Hl & _ & _ & Hall).
  exists l. split; [done|]. intros b1 b2 H1 H2. unfold are_isomorphic.
  destruct (Hall b1 H1) as (_ & -> & _). destruct (Hall b2 H2) as (_ & -> & _).
  done.
Qed.

(** X18. Every system [list_of_benzenoids] returns is connected: any two
    of its hexagons are joined by a walk through neighbouring hexagons of
    the system. *)
Theorem list_of_benzenoids_connected (h : Z) :
  ∃ l, list_of_benzenoids h = Ok l ∧ ∀ b, b ∈ l → connected b.
Proof.
  destruct (list_of_benzenoids_invariant h) as (l & Hl & _ & _ & Hall).
  exists l. split; [done|]. intros b Hb. by apply Hall.
Qed.

(** ** Completeness of the growth search *)

Lemma adjacent_iter_rot60 k a b :
  adjacent a b → adjacent (Nat.iter k rot60 a) (Nat.iter k rot60 b).
Proof.
  intros H. induction k as [|k IH]; [done|].
  rewrite !Nat.iter_succ. by apply adjacent_rot60.
Qed.

(** A congruence is realised by one map of the lattice, which is injective
    and keeps neighbours neighbours. *)
Lemma congruent_point_map x y :
  congruent x y →
  ∃ f : hexagon → hexagon,
    (∀ p q, f p = f q → p = q)
    ∧ (∀ a b, adjacent a b → adjacent (f a) (f b))
    ∧ y ≡ₚ map f x
    ∧ ∀ z, congruent z (map f z).
Proof.
  intros (k & m & di & dj & Hy).
  set (f := fun p : hexagon =>
              let '(i, j) := Nat.iter k rot60 (if m then refl p else p)
              in (i - di, j - dj)).
  assert (Hf : ∀ z, shift di dj (symmetry k m z) = map f z).
  { intros z. unfold shift, symmetry. rewrite iter_rotation_60_map.
    destruct m.
    - unfold reflection. rewrite !map_map. apply map_ext. by intros [i j].
    - rewrite !map_map. apply map_ext. by intros [i j]. }
  exists f. split; [|split; [|split]].
  - intros p q. unfold f.
    destruct (Nat.iter k rot60 (if m then refl p else p)) as [i j] eqn:Ep.
    destruct (Nat.iter k rot60 (if m then refl q else q)) as [i' j'] eqn:Eq.
    intros [=]. assert (i = i') by lia. assert (j = j') by lia. subst.
    rewrite <- Eq in Ep. apply iter_rot60_inj in Ep.
    destruct m; [by apply refl_inj|done].
  - intros a b Hab. unfold f.
    assert (H0 : adjacent (if m then refl a else a) (if m then refl b else b))
      by (destruct m; by try apply adjacent_refl).
    apply (adjacent_iter_rot60 k) in H0.
    destruct (Nat.iter k rot60 (if m then refl a else a)) as [i j].
    destruct (Nat.iter k rot60 (if m then refl b else b)) as [u v].
    apply (adjacent_shift di dj (i, j) (u, v) H0).
  - by rewrite <- Hf.
  - intros z. exists k, m, di, dj. by rewrite Hf.
Qed.

Lemma built_nonempty s : built s → s ≠ [].
Proof. destruct 1 as [h|s h x _ _ _ _]; [done|by destruct s]. Qed.

Lemma built_NoDup s : built s → NoDup s.
Proof.
  induction 1 as [h|s h x _ IH _ _ Hx]; [apply NoDup_singleton|].
  apply NoDup_app. split; [done|]. split; [|apply NoDup_singleton].
  intros p Hp ->%list_elem_of_singleton. done.
Qed.

Lemma built_connected s : built s → connected s.
Proof.
  induction 1 as [h|s h x _ IH Hh Hadj _]; [apply connected_singleton|].
  by apply (connected_snoc s h x).
Qed.

Lemma to_canonical_singleton h : to_canonical [h] = Ok [(0, 0)].
Proof.
  rewrite <- (to_canonical_similar [(0, 0)] [h]); [by vm_compute|done|].
  destruct h as [i j]. exists (- i), (- j). simpl.
  apply Permutation_refl'. do 2 f_equal; lia.
Qed.

(** A system built hexagon by hexagon is found by the search. *)
Lemma built_listed s :
  built s →
  ∃ l c, repeatM (length s - 1) generation [[(0, 0)]] = Ok l
       ∧ to_canonical s = Ok c ∧ c ∈ l.
Proof.
  induction 1 as [h|s h x Hs IH Hh Hadj Hx].
  - exists [[(0, 0)]], [(0, 0)]. split; [done|].
    split; [apply to_canonical_singleton|left].
  - destruct IH as (l & c & Hl & Hc & Hin).
    pose proof (built_nonempty s Hs) as Hne.
    assert (Hne' : s ++ [x] ≠ []) by by destruct s.
    replace (length (s ++ [x]) - 1)%nat with (S (length s - 1))
      by (rewrite length_app; destruct s; [done|simpl; lia]).
    rewrite repeatM_succ_r, Hl. cbn [bind].
    destruct (generation_spec l) as (l' & -> & _ & Hl').
    destruct (to_canonical_ok (s ++ [x]) Hne') as (c' & Hc').
    exists l', c'. split; [done|]. split; [done|].
    destruct (congruent_point_map s c) as (f & Hinj & Hfadj & Hperm & Hcong);
      [by apply in_orbit_congruent, to_canonical_in_orbit|].
    apply Hl'. exists c, (f x). split; [done|]. split.
    + apply elem_of_layer_of_fat. split.
      * rewrite Hperm. intros (p & Hp & Hps)%list_elem_of_In%in_map_iff.
        apply Hinj in Hp as ->. by apply list_elem_of_In in Hps.
      * exists (f h). split; [|by apply Hfadj].
        rewrite Hperm. apply list_elem_of_In, in_map. by apply list_elem_of_In.
    + rewrite <- Hc'. apply to_canonical_congruent; [done|].
      apply (congruent_trans _ (map f (s ++ [x]))); [apply Hcong|].
      exists O, false. apply (similar_trans _ (map f (s ++ [x])));
        [apply similar_refl|].
      apply similar_Permutation. rewrite map_app. simpl. by rewrite Hperm.
Qed.

(** A walk that starts inside [t] and ends outside leaves [t] somewhere. *)
Lemma exit_edge (s t : list hexagon) u x :
  rtc (fun u v => v ∈ s ∧ adjacent u v) u x → u ∈ t → x ∉ t →
  ∃ v y, v ∈ t ∧ y ∈ s ∧ (y ∉ t) ∧ adjacent v y.
Proof.
  induction 1 as [u|u w x [Hw Hadj] _ IH]; intros Hu Hx; [done|].
  destruct (decide (w ∈ t)) as [Hwt|Hwt]; [by apply IH|].
  by exists u, w.
Qed.

Lemma built_extend s :
  connected s → NoDup s →
  ∀ n t, built t → (∀ p, p ∈ t → p ∈ s) → (length s ≤ length t + n)%nat →
         ∃ t', built t' ∧ t' ≡ₚ s.
Proof.
  intros Hconn Hnd. induction n as [|n IH]; intros t Ht Hsub Hlen.
  - exists t. split; [done|].
    apply submseteq_length_Permutation; [|lia].
    apply NoDup_submseteq; [by apply built_NoDup|done].
  - destruct (decide (Forall (fun p => p ∈ t) s)) as [Hall|Hnot].
    + exists t. split; [done|].
      apply NoDup_Permutation; [by apply built_NoDup|done|].
      rewrite Forall_forall in Hall. intros p. split; [apply Hsub|apply Hall].
    + apply not_Forall_Exists in Hnot; [|apply _].
      apply Exists_exists in Hnot as (x & Hxs & Hxt). simpl in Hxt.
      destruct t as [|u t0] eqn:Et; [by apply built_nonempty in Ht|].
      rewrite <- Et in *.
      assert (Hu : u ∈ t) by (rewrite Et; left).
      destruct (exit_edge s t u x) as (v & y & Hv & Hys & Hyt & Hadj);
        [by apply Hconn; [apply Hsub|]|done|done|].
      apply (IH (t ++ [y])).
      * by apply (built_add t v y).
      * intros p [Hp| ->%list_elem_of_singleton]%elem_of_app; [by apply Hsub|done].
      * rewrite length_app. simpl. lia.
Qed.

Lemma connected_built s :
  s ≠ [] → NoDup s → connected s → ∃ t, built t ∧ t ≡ₚ s.
Proof.
  intros Hne Hnd Hconn. destruct s as [|p s0] eqn:Es; [done|].
  rewrite <- Es in *.
  apply (built_extend s Hconn Hnd (length s) [p]).
  - constructor.
  - intros q ->%list_elem_of_singleton. rewrite Es. left.
  - simpl. lia.
Qed.

(** X19. The search is complete: the canonical form of every non-empty
    connected system of pairwise distinct hexagons is in
    [list_of_benzenoids] of its size, and it is the only entry of that list
    the system is isomorphic to. *)
Theorem list_of_benzenoids_complete (s : list hexagon) :
  s ≠ [] → NoDup s → connected s →
  ∃ l c, list_of_benzenoids (Z.of_nat (length s)) = Ok l
       ∧ to_canonical s = Ok c ∧ c ∈ l
       ∧ ∀ b, b ∈ l → are_isomorphic s b = Ok (bool_decide (c = b)).
Proof.
  intros Hne Hnd Hconn.
  destruct (connected_built s Hne Hnd Hconn) as (t & Ht & Hperm).
  destruct (built_listed t Ht) as (l & c & Hl & Hc & Hin).
  exists l, c.
  assert (Hrun : list_of_benzenoids (Z.of_nat (length s)) = Ok l).
  { rewrite list_of_benzenoids_unfold, <- Hl. f_equal.
    rewrite (Permutation_length Hperm). lia. }
  assert (Hcs : to_canonical s = Ok c).
  { rewrite <- Hc. apply to_canonical_similar; [done|].
    by apply similar_Permutation. }
  split; [done|]. split; [done|]. split; [done|].
  intros b Hb. unfold are_isomorphic. rewrite Hcs. cbn [bind].
  destruct (list_of_benzenoids_invariant (Z.of_nat (length s)))
    as (l0 & Hl0 & _ & _ & Hall).
  rewrite Hrun in Hl0. injection Hl0 as <-.
  destruct (Hall b Hb) as (_ & -> & _). done.
Qed.

Lemma list_of_benzenoids_complete_witness :
  ∃ l c, list_of_benzenoids (Z.of_nat (length [(4, 4); (5, 4); (5, 3)])) = Ok l
       ∧ to_canonical [(4, 4); (5, 4); (5, 3)] = Ok c ∧ c ∈ l
       ∧ ∀ b, b ∈ l →
              are_isomorphic [(4, 4); (5, 4); (5, 3)] b
              = Ok (bool_decide (c = b)).
Proof.
  assert (Hb : built [(4, 4); (5, 4); (5, 3)]).
  { apply (built_add [(4, 4); (5, 4)] (5, 4) (5, 3)).
    - apply (built_add [(4, 4)] (4, 4) (5, 4)).
      + constructor.
      + left.
      + unfold adjacent. apply (bool_decide_unpack _). by vm_compute.
      + apply (bool_decide_unpack _). by vm_compute.
    - right. left.
    - unfold adjacent. apply (bool_decide_unpack _). by vm_compute.
    - apply (bool_decide_unpack _). by vm_compute. }
  apply (list_of_benzenoids_complete [(4, 4); (5, 4); (5, 3)]).
  - discriminate.
  - by apply built_NoDup.
  - by apply built_connected.
Defined.
